(** * The article content engine of the portfolio site (ArticlesService.ts)

    A shallow embedding of [ArticlesService]: the loader, the field
    derivation (excerpt, reading time), the query engine, the tag
    aggregator and the slug lookup, with the properties stated for them.

    Conventions.
    - A JavaScript string is a [string]; each [ascii] stands for one UTF-16
      code unit below 256, so [length] is the number of code units.
    - A JavaScript number that the service uses as a length, an index or a
      count is a [Z]; a time value that may be [NaN] is an [option Z].
    - What the service gets from its libraries and its runtime (slugify, the
      Date parser, the collation of localeCompare) is a Variable of the
      section that embeds the service. *)

From Stdlib Require Import List String Ascii ZArith NArith Lia Bool Arith.
From Stdlib Require Import Permutation Sorted.
Import ListNotations.

Local Open Scope Z_scope.

(** ** Strings of the runtime *)

Module JsString.

Local Open Scope string_scope.

(** [\s] of a regular expression, which is also what [trim] removes:
    TAB, LF, VT, FF, CR, SPACE and NBSP among the code units below 256. *)
Definition isWhiteSpace (c : ascii) : bool :=
  let n := N_of_ascii c in
  (((9 <=? n) && (n <=? 13)) || (n =? 32) || (n =? 160))%N.

(** The code units that [.] does not match. *)
Definition isLineTerminator (c : ascii) : bool :=
  let n := N_of_ascii c in
  ((n =? 10) || (n =? 13))%N.

(** [s.length] *)
Definition length (s : string) : Z := Z.of_nat (String.length s).

Fixpoint take (n : nat) (s : string) : string :=
  match n, s with
  | S n', String c s' => String c (take n' s')
  | _, _ => ""
  end.

Fixpoint drop (n : nat) (s : string) : string :=
  match n, s with
  | S n', String _ s' => drop n' s'
  | _, _ => s
  end.

(** [s.substring(a, b)]: both ends are clamped to [0, s.length] and swapped
    when they come in the wrong order. *)
Definition substring (s : string) (a b : Z) : string :=
  let len := length s in
  let a' := Z.min (Z.max a 0) len in
  let b' := Z.min (Z.max b 0) len in
  let from := Z.min a' b' in
  let to := Z.max a' b' in
  take (Z.to_nat (to - from)) (drop (Z.to_nat from) s).

Fixpoint lastIndexFrom (i : Z) (last : Z) (c : ascii) (s : string) : Z :=
  match s with
  | "" => last
  | String d s' => lastIndexFrom (i + 1) (if Ascii.eqb d c then i else last) c s'
  end.

(** [s.lastIndexOf(c)] for a one-character search string: [-1] when absent. *)
Definition lastIndexOf (s : string) (c : ascii) : Z := lastIndexFrom 0 (-1) c s.

(** [toLowerCase] on one code unit: A-Z and the capital letters of Latin-1
    (U+00C0 to U+00DE without the multiplication sign U+00D7). *)
Definition lowerChar (c : ascii) : ascii :=
  let n := N_of_ascii c in
  if (((65 <=? n) && (n <=? 90)) ||
      ((192 <=? n) && (n <=? 222) && negb (n =? 215)))%N
  then ascii_of_N (n + 32) else c.

Fixpoint toLowerCase (s : string) : string :=
  match s with
  | "" => ""
  | String c s' => String (lowerChar c) (toLowerCase s')
  end.

(** [s.includes(q)] *)
Fixpoint includes (s q : string) : bool :=
  String.prefix q s ||
  match s with
  | "" => false
  | String _ s' => includes s' q
  end.

Fixpoint trimStart (s : string) : string :=
  match s with
  | "" => ""
  | String c s' => if isWhiteSpace c then trimStart s' else s
  end.

Fixpoint trimEnd (s : string) : string :=
  match s with
  | "" => ""
  | String c s' =>
      match trimEnd s' with
      | "" => if isWhiteSpace c then "" else String c ""
      | t => String c t
      end
  end.

(** [s.trim()] *)
Definition trim (s : string) : string := trimEnd (trimStart s).

Fixpoint countWhile (p : ascii -> bool) (s : string) : nat :=
  match s with
  | "" => O
  | String c s' => if p c then S (countWhile p s') else O
  end.

(** [s.replace(re, ...)] for a global regular expression [re]. [matchAt s]
    is the match of [re] anchored at the start of [s]: the text that
    replaces it and how many code units it spans. Scanning goes left to
    right and resumes after each match; [skip] counts the code units of the
    current match still to be passed over. None of the expressions of the
    service matches the empty string. *)
Fixpoint replaceFrom (matchAt : string -> option (string * nat))
    (skip : nat) (s : string) : string :=
  match s with
  | "" => ""
  | String c s' =>
      match skip with
      | S k => replaceFrom matchAt k s'
      | O =>
          match matchAt s with
          | Some (rep, n) => rep ++ replaceFrom matchAt (Nat.pred n) s'
          | None => String c (replaceFrom matchAt O s')
          end
      end
  end.

Definition replace (matchAt : string -> option (string * nat)) (s : string)
  : string := replaceFrom matchAt O s.

(** The offset of the first occurrence of [d] in [s] that is reached through
    code units outside [stop] only: what a lazy [(.*?)] or [[\s\S]*?]
    followed by the literal [d] consumes. *)
Fixpoint lazyUntil (stop : ascii -> bool) (d : string) (s : string)
  : option nat :=
  if String.prefix d s then Some O
  else match s with
       | "" => None
       | String c s' =>
           if stop c then None else option_map S (lazyUntil stop d s')
       end.

End JsString.

(** ** Field derivation: the excerpt *)

Module Excerpt.

Import JsString.
Local Open Scope string_scope.
Local Open Scope Z_scope.

Definition isHash (c : ascii) : bool := Ascii.eqb c "#".

(** [/#{1,6}\s+/g], replaced by the empty string. A run of more than six
    [#] does not match at its start: the expression then matches at the
    sixth [#] from the end of the run, where this function is tried again. *)
Definition matchHeader (s : string) : option (string * nat) :=
  let h := countWhile isHash s in
  let w := countWhile isWhiteSpace (drop h s) in
  if ((1 <=? h) && (h <=? 6) && (1 <=? w))%nat then Some ("", (h + w)%nat)
  else None.

(** [/d(.*?)d/g] replaced by ['$1'], for the delimiters [**], [*] and the
    backquote. *)
Definition matchDelimited (d : string) (s : string) : option (string * nat) :=
  if String.prefix d s then
    let n := String.length d in
    let body := drop n s in
    match lazyUntil isLineTerminator d body with
    | Some k => Some (take k body, (n + k + n)%nat)
    | None => None
    end
  else None.

Definition fence : string := "```".

(** The fenced code block [/```[\s\S]*?```/g], replaced by the empty
    string. *)
Definition matchFence (s : string) : option (string * nat) :=
  if String.prefix fence s then
    match lazyUntil (fun _ => false) fence (drop 3 s) with
    | Some k => Some ("", (3 + k + 3)%nat)
    | None => None
    end
  else None.

(** [/\[([^\]]+)\]\([^)]+\)/g] replaced by ['$1']: the link text is kept. *)
Definition matchLink (s : string) : option (string * nat) :=
  match s with
  | String "[" s1 =>
      let n := countWhile (fun c => negb (Ascii.eqb c "]")) s1 in
      let s2 := drop n s1 in
      if (1 <=? n)%nat && String.prefix "](" s2 then
        let s3 := drop 2 s2 in
        let m := countWhile (fun c => negb (Ascii.eqb c ")")) s3 in
        if (1 <=? m)%nat && String.prefix ")" (drop m s3)
        then Some (take n s1, (1 + n + 2 + m + 1)%nat)
        else None
      else None
  | _ => None
  end.

Definition LF : ascii := ascii_of_N 10.

(** [/\n\s*\n/g] replaced by one space. The greedy [\s*] runs over the
    white space after the first line feed and gives back down to the last
    line feed of it. *)
Definition matchBlankLines (s : string) : option (string * nat) :=
  match s with
  | String c s1 =>
      if Ascii.eqb c LF then
        let w := countWhile isWhiteSpace s1 in
        let k := lastIndexOf (take w s1) LF in
        if k <? 0 then None else Some (" ", (1 + Z.to_nat k + 1)%nat)
      else None
  | "" => None
  end.

(** [/\s+/g] replaced by one space. *)
Definition matchSpaces (s : string) : option (string * nat) :=
  let w := countWhile isWhiteSpace s in
  if (1 <=? w)%nat then Some (" ", w) else None.

(** The chain of replacements at the head of extractExcerpt. *)
Definition plainTextOf (content : string) : string :=
  trim
    (replace matchSpaces
    (replace matchBlankLines
    (replace matchLink
    (replace matchFence
    (replace (matchDelimited "`")
    (replace (matchDelimited "*")
    (replace (matchDelimited "**")
    (replace matchHeader content)))))))).

Definition ellipsis : string := "...".

(** [extractExcerpt(content, length)]. The test
    [lastSpaceIndex > length * 0.8] is on an integer index and an integer
    length; it is written here as [4 * length < 5 * lastSpaceIndex], which
    is the same test for every length a string can have (the product
    [length * 0.8] rounds to the integer [4 * length / 5] when that is an
    integer, and otherwise lies at least 0.2 away from any integer). *)
Definition extractExcerpt (content : string) (length : Z) : string :=
  let plainText := plainTextOf content in
  if JsString.length plainText <=? length then plainText
  else
    let truncated := substring plainText 0 length in
    let lastSpaceIndex := lastIndexOf truncated " " in
    if 4 * length <? 5 * lastSpaceIndex
    then substring truncated 0 lastSpaceIndex ++ ellipsis
    else truncated ++ ellipsis.

End Excerpt.

(** ** Arrays of the runtime *)

Module JsArray.

(** What [Array.prototype.sort] makes of the number its comparator returns:
    [NaN] counts as [+0]. *)
Definition cmpValue (v : option Z) : Z :=
  match v with
  | Some z => z
  | None => 0
  end.

Section Sort.
Context {A : Type} (cmp : A -> A -> option Z).

Fixpoint insert (x : A) (l : list A) : list A :=
  match l with
  | [] => [x]
  | y :: l' =>
      if cmpValue (cmp x y) <=? 0 then x :: y :: l' else y :: insert x l'
  end.

(** [l.sort(cmp)]. The sort of the language is stable; for a comparator
    that orders the elements consistently every stable sort returns the
    same array, which is the one built here by insertion from the right
    (an element goes before the first one it does not exceed, hence before
    its equals that came later). *)
Definition sort (l : list A) : list A := fold_right insert [] l.
End Sort.

(** [l.slice(s, e)]: a negative bound counts from the end of the array, and
    both are clamped to the array. *)
Definition slice {A : Type} (l : list A) (s e : Z) : list A :=
  let len := Z.of_nat (List.length l) in
  let k := if s <? 0 then Z.max (len + s) 0 else Z.min s len in
  let final := if e <? 0 then Z.max (len + e) 0 else Z.min e len in
  firstn (Z.to_nat (final - k)) (skipn (Z.to_nat k) l).

(** [Math.ceil(a / b)] for integers [a] and [b > 0]. *)
Definition ceilDiv (a b : Z) : Z := - ((- a) / b).

(** A [Map] with string keys: the entries in insertion order. [set] on a
    key that is present keeps the place of its entry. *)
Definition Map (V : Type) : Type := list (string * V).

Fixpoint mapGet {V : Type} (m : Map V) (k : string) : option V :=
  match m with
  | [] => None
  | (k', v) :: m' => if String.eqb k' k then Some v else mapGet m' k
  end.

Fixpoint mapSet {V : Type} (m : Map V) (k : string) (v : V) : Map V :=
  match m with
  | [] => [(k, v)]
  | (k', v') :: m' =>
      if String.eqb k' k then (k, v) :: m' else (k', v') :: mapSet m' k v
  end.

Fixpoint findIndexFrom {A : Type} (p : A -> bool) (i : Z) (l : list A) : Z :=
  match l with
  | [] => -1
  | x :: l' => if p x then i else findIndexFrom p (i + 1) l'
  end.

(** [l.findIndex(p)]: [-1] when no element satisfies [p]. *)
Definition findIndex {A : Type} (p : A -> bool) (l : list A) : Z :=
  findIndexFrom p 0 l.

(** [l[i]], which is [undefined] outside the array. *)
Definition item {A : Type} (l : list A) (i : Z) : option A :=
  if i <? 0 then None else nth_error l (Z.to_nat i).

End JsArray.

(** ** The service *)

Module ArticlesService.

Import JsString JsArray Excerpt.
Local Open Scope string_scope.
Local Open Scope Z_scope.

(** What the service takes from its libraries and from the runtime. *)
Class Runtime : Type := {
  (** [slugify(title, { lower, strict, remove })] of the slugify package *)
  slugify : string -> string;
  (** [new Date(s).getTime()]; [None] is the [NaN] of an invalid date *)
  dateTime : string -> option Z;
  (** [a.localeCompare(b)] *)
  localeCompare : string -> string -> Z
}.

Record ArticleMetadata : Type := {
  title : string;
  date : string;
  tags : list string;
  summary : string;
  author : string;
  slug : string
}.

Record Article : Type := {
  metadata : ArticleMetadata;
  content : string;
  excerpt : string;
  readingTime : Z;
  filename : string;
  path : string
}.

(** [ArticleListItem]: an article without its body. *)
Record ArticleListItem : Type := {
  itemMetadata : ArticleMetadata;
  itemExcerpt : string;
  itemReadingTime : Z;
  itemFilename : string;
  itemPath : string
}.

Record BlogConfig : Type := {
  articlesPerPage : Z;
  excerptLength : Z;
  dateFormat : string
}.

Inductive SortKey : Type := ByDate | ByTitle.
Inductive SortOrder : Type := Asc | Desc.

Record ArticleSearchParams : Type := {
  query : option string;
  tag : option string;
  page : option Z;
  sortBy : option SortKey;
  sortOrder : option SortOrder
}.

Record ArticleSearchResult : Type := {
  articles : list ArticleListItem;
  totalCount : Z;
  currentPage : Z;
  totalPages : Z;
  hasNextPage : bool;
  hasPreviousPage : bool
}.

Record TagCount : Type := {
  tagName : string;
  count : Z
}.

Definition config : BlogConfig := {|
  articlesPerPage := 10;
  excerptLength := 200;
  dateFormat := "MMMM dd, yyyy"
|}.

(** The [data] that gray-matter returns for a document: every key may be
    missing; [fmTags] is [None] also when the key holds no array. *)
Record FrontMatter : Type := {
  fmTitle : option string;
  fmDate : option string;
  fmTags : option (list string);
  fmSummary : option string;
  fmAuthor : option string;
  fmSlug : option string
}.

(** What retrieving and parsing one document comes to. *)
Inductive Fetched : Type :=
| NotOk                      (* fetch fails or the response is not ok *)
| Malformed                  (* matter throws on the text *)
| Parsed (data : FrontMatter) (body : string).

(** The document source: what is behind each URL. *)
Definition Source : Type := string -> Fetched.

(** Truthiness of an optional text: a missing key and the empty string are
    falsy. *)
Definition truthy (v : option string) : bool :=
  match v with
  | Some s => negb (String.eqb s "")
  | None => false
  end.

(** The text under a key that is known to be there. *)
Definition textOf (v : option string) : string :=
  match v with
  | Some s => s
  | None => ""
  end.

(** [v || d] *)
Definition orElse (v : option string) (d : string) : string :=
  if truthy v then textOf v else d.

Definition getArticleFiles : list string :=
  [ "apache-execcgi-fpm.md";
    "linux-performance-monitoring.md";
    "ai-model-deployment-kubernetes.md";
    "docker-optimization-production.md";
    "rust-system-tools-development.md" ].

Definition generateSlug `{Runtime} (t : string) : string := slugify t.

(** The number of maximal runs of white space in [s]; [inRun] tells that
    the code unit before [s] was white space. *)
Fixpoint countRuns (inRun : bool) (s : string) : Z :=
  match s with
  | "" => 0
  | String c s' =>
      if isWhiteSpace c
      then (if inRun then 0 else 1) + countRuns true s'
      else countRuns false s'
  end.

(** [content.trim().split(/\s+/).length]: one piece more than there are
    separators; the empty text splits into one empty piece. *)
Definition wordCount (body : string) : Z := 1 + countRuns false (trim body).

Definition calculateReadingTime (body : string) : Z :=
  let wordsPerMinute := 200 in
  ceilDiv (wordCount body) wordsPerMinute.

Definition urlOf (file : string) : string := "/pages/articles/" ++ file.

Definition loadSingleArticle `{Runtime} (source : Source) (file : string)
  : option Article :=
  match source (urlOf file) with
  | NotOk => None
  | Malformed => None
  | Parsed data body =>
      if negb (truthy (fmTitle data)) || negb (truthy (fmDate data))
         || negb (truthy (fmAuthor data))
      then None
      else
        let meta := {|
          title := textOf (fmTitle data);
          date := textOf (fmDate data);
          tags := match fmTags data with Some l => l | None => [] end;
          summary := orElse (fmSummary data) "";
          author := textOf (fmAuthor data);
          slug := orElse (fmSlug data) (generateSlug (textOf (fmTitle data)))
        |} in
        Some {|
          metadata := meta;
          content := body;
          excerpt := extractExcerpt body (excerptLength config);
          readingTime := calculateReadingTime body;
          filename := file;
          path := "/article/" ++ slug meta
        |}
  end.

(** [new Date(a.metadata.date).getTime()] *)
Definition timeOf `{Runtime} (m : ArticleMetadata) : option Z :=
  dateTime (date m).

(** [x - y] on numbers that may be [NaN] *)
Definition minus (x y : option Z) : option Z :=
  match x, y with
  | Some a, Some b => Some (a - b)
  | _, _ => None
  end.

(** The comparator of the load: newest first. *)
Definition newestFirst `{Runtime} (a b : Article) : option Z :=
  minus (timeOf (metadata b)) (timeOf (metadata a)).

(** The loop of loadArticles over the file names: the articles that loaded,
    in the order of their files. *)
Fixpoint loadEach `{Runtime} (source : Source) (files : list string)
  : list Article :=
  match files with
  | [] => []
  | file :: rest =>
      match loadSingleArticle source file with
      | Some article => article :: loadEach source rest
      | None => loadEach source rest
      end
  end.

(** The index that loadArticles stores, for a given list of file names. *)
Definition loadArticlesOf `{Runtime} (articleFiles : list string)
    (source : Source) : list Article :=
  sort newestFirst (loadEach source articleFiles).

Definition loadArticles `{Runtime} (source : Source) : list Article :=
  loadArticlesOf getArticleFiles source.

(** *** Readers of the index. Each takes the array that getArticles
    returned. *)

Definition getArticleBySlug (index : list Article) (s : string)
  : option Article :=
  List.find (fun article => String.eqb (slug (metadata article)) s) index.

Definition listItem (article : Article) : ArticleListItem := {|
  itemMetadata := metadata article;
  itemExcerpt := excerpt article;
  itemReadingTime := readingTime article;
  itemFilename := filename article;
  itemPath := path article
|}.

Definition getArticlesList (index : list Article) : list ArticleListItem :=
  map listItem index.

(** [tags.includes(t)] *)
Definition hasTag (ts : list string) (t : string) : bool :=
  existsb (fun t' => String.eqb t' t) ts.

(** The predicate of the query filter; [q] is the query as given. *)
Definition matchesQuery (q : string) (article : ArticleListItem) : bool :=
  let query := toLowerCase q in
  includes (toLowerCase (title (itemMetadata article))) query
  || includes (toLowerCase (summary (itemMetadata article))) query
  || existsb (fun t => includes (toLowerCase t) query)
       (tags (itemMetadata article))
  || includes (toLowerCase (itemExcerpt article)) query.

Definition filterByQuery (params : ArticleSearchParams)
    (l : list ArticleListItem) : list ArticleListItem :=
  if truthy (query params)
  then filter (matchesQuery (textOf (query params))) l
  else l.

Definition filterByTag (params : ArticleSearchParams)
    (l : list ArticleListItem) : list ArticleListItem :=
  if truthy (tag params)
  then filter (fun a => hasTag (tags (itemMetadata a))
                          (textOf (tag params))) l
  else l.

Definition negate (v : option Z) : option Z := option_map Z.opp v.

(** The comparator of the search. *)
Definition searchOrder `{Runtime} (params : ArticleSearchParams)
    (a b : ArticleListItem) : option Z :=
  let sortBy := match sortBy params with Some k => k | None => ByDate end in
  let sortOrder := match sortOrder params with Some o => o | None => Desc end in
  let comparison :=
    match sortBy with
    | ByDate => minus (timeOf (itemMetadata a)) (timeOf (itemMetadata b))
    | ByTitle => Some (localeCompare (title (itemMetadata a))
                                     (title (itemMetadata b)))
    end in
  match sortOrder with
  | Desc => negate comparison
  | Asc => comparison
  end.

(** The filtered set, before it is sorted. *)
Definition filtered (index : list Article) (params : ArticleSearchParams)
  : list ArticleListItem :=
  filterByTag params (filterByQuery params (getArticlesList index)).

(** The filtered and sorted set, before it is cut into pages. *)
Definition filteredSorted `{Runtime} (index : list Article)
    (params : ArticleSearchParams) : list ArticleListItem :=
  sort (searchOrder params) (filtered index params).

(** [params.page || 1] *)
Definition pageOf (params : ArticleSearchParams) : Z :=
  match page params with
  | Some p => if p =? 0 then 1 else p
  | None => 1
  end.

Definition searchArticles `{Runtime} (index : list Article)
    (params : ArticleSearchParams) : ArticleSearchResult :=
  let articles := filteredSorted index params in
  let page := pageOf params in
  let articlesPerPage := articlesPerPage config in
  let totalCount := Z.of_nat (List.length articles) in
  let totalPages := ceilDiv totalCount articlesPerPage in
  let startIndex := (page - 1) * articlesPerPage in
  let endIndex := startIndex + articlesPerPage in
  let paginatedArticles := slice articles startIndex endIndex in
  {| articles := paginatedArticles;
     totalCount := totalCount;
     currentPage := page;
     totalPages := totalPages;
     hasNextPage := page <? totalPages;
     hasPreviousPage := 1 <? page |}.

(** [(tagCounts.get(tag) || 0)] *)
Definition getOrZero (m : Map Z) (t : string) : Z :=
  match mapGet m t with
  | Some v => v
  | None => 0
  end.

Definition countTag (m : Map Z) (t : string) : Map Z :=
  mapSet m t (getOrZero m t + 1).

(** The two nested forEach loops of getAllTags. *)
Definition countTags (index : list Article) : Map Z :=
  fold_left (fun m article => fold_left countTag (tags (metadata article)) m)
    index [].

Definition mostUsedFirst (a b : TagCount) : option Z :=
  Some (count b - count a).

Definition getAllTags (index : list Article) : list TagCount :=
  sort mostUsedFirst
    (map (fun e => {| tagName := fst e; count := snd e |})
       (countTags index)).

(** One side of [ArticleNavigation]. *)
Record NavLink : Type := {
  linkTitle : string;
  linkSlug : string
}.

Record ArticleNavigation : Type := {
  previous : option NavLink;
  next : option NavLink
}.

Definition linkTo (article : Article) : NavLink := {|
  linkTitle := title (metadata article);
  linkSlug := slug (metadata article)
|}.

(** The two tests on [currentIndex] keep [articles[currentIndex - 1]] and
    [articles[currentIndex + 1]] inside the array. *)
Definition getArticleNavigation (index : list Article) (currentSlug : string)
  : ArticleNavigation :=
  let currentIndex :=
    findIndex (fun article => String.eqb (slug (metadata article)) currentSlug)
      index in
  if currentIndex =? -1 then {| previous := None; next := None |}
  else
    {| previous :=
         if 0 <? currentIndex
         then option_map linkTo (item index (currentIndex - 1))
         else None;
       next :=
         if currentIndex <? Z.of_nat (List.length index) - 1
         then option_map linkTo (item index (currentIndex + 1))
         else None |}.

(** [getRecentArticles(limit = 5)]; [None] is the call without argument. *)
Definition getRecentArticles (index : list Article) (limit : option Z)
  : list ArticleListItem :=
  let limit := match limit with Some n => n | None => 5 end in
  slice (getArticlesList index) 0 limit.

Record BlogSettings : Type := {
  settingsConfig : BlogConfig;
  allTags : list TagCount;
  recentArticles : list ArticleListItem
}.

Definition getBlogSettings (index : list Article) : BlogSettings := {|
  settingsConfig := config;
  allTags := getAllTags index;
  recentArticles := getRecentArticles index None
|}.

End ArticlesService.

(** ** Calls of the service that overlap

    An async method runs without interruption from one [await] to the
    next. A call of loadArticles is therefore a process that is suspended
    at one of its [await]s, and the service moves by resuming one suspended
    call at a time; which one comes next is up to the event loop and the
    network, so every order is considered. *)

Module Async.

Import JsArray ArticlesService.

(** Where a call of loadArticles stands. *)
Inductive Load : Type :=
| AwaitFiles
    (* at [await this.getArticleFiles()] *)
| AwaitArticle (file : string) (rest : list string) (loaded : list Article)
    (* at [await this.loadSingleArticle(file)], whose fetch has been
       issued; [rest] are the files still to come *)
| LoadDone.

(** Where a call of getArticles stands. *)
Inductive Caller : Type :=
| AwaitLoad (l : nat)
    (* at [await this.loadArticles()], the call being number [l] *)
| Returned (result : list Article).

Record State : Type := {
  index : list Article;        (* this.articles *)
  fetches : list string;       (* the files fetched so far, latest first *)
  loads : list Load;
  callers : list Caller
}.

Inductive Event : Type :=
| Call                (* somebody calls getArticles *)
| Resume (l : nat)    (* the call [l] of loadArticles goes on *)
| Return (c : nat).   (* the call [c] of getArticles goes on *)

Fixpoint setNth {A : Type} (l : list A) (i : nat) (x : A) : list A :=
  match l, i with
  | [], _ => []
  | _ :: l', O => x :: l'
  | y :: l', S i' => y :: setNth l' i' x
  end.

(** The state right after [new ArticlesService()]: the constructor called
    loadArticles, which ran up to its first [await]. *)
Definition created : State := {|
  index := [];
  fetches := [];
  loads := [AwaitFiles];
  callers := []
|}.

Section Steps.
Context `{Runtime} (source : Source) (articleFiles : list string).

(** The for loop of the call [l] of loadArticles, entered with [rest] to
    go: it issues the next fetch and suspends, or it is through, sorts and
    stores the index. *)
Definition proceed (l : nat) (rest : list string) (loaded : list Article)
    (st : State) : State :=
  match rest with
  | file :: rest' =>
      {| index := index st;
         fetches := file :: fetches st;
         loads := setNth (loads st) l (AwaitArticle file rest' loaded);
         callers := callers st |}
  | [] =>
      {| index := sort newestFirst loaded;
         fetches := fetches st;
         loads := setNth (loads st) l LoadDone;
         callers := callers st |}
  end.

Definition step (e : Event) (st : State) : option State :=
  match e with
  | Call =>
      match index st with
      | [] =>
          Some {| index := index st;
                  fetches := fetches st;
                  loads := loads st ++ [AwaitFiles];
                  callers := callers st ++ [AwaitLoad (List.length (loads st))] |}
      | _ :: _ =>
          Some {| index := index st;
                  fetches := fetches st;
                  loads := loads st;
                  callers := callers st ++ [Returned (index st)] |}
      end
  | Resume l =>
      match nth_error (loads st) l with
      | Some AwaitFiles => Some (proceed l articleFiles [] st)
      | Some (AwaitArticle file rest loaded) =>
          match loadSingleArticle source file with
          | Some article => Some (proceed l rest (loaded ++ [article]) st)
          | None => Some (proceed l rest loaded st)
          end
      | _ => None
      end
  | Return c =>
      match nth_error (callers st) c with
      | Some (AwaitLoad l) =>
          match nth_error (loads st) l with
          | Some LoadDone =>
              Some {| index := index st;
                      fetches := fetches st;
                      loads := loads st;
                      callers := setNth (callers st) c (Returned (index st)) |}
          | _ => None
          end
      | _ => None
      end
  end.

(** The events of a schedule, one after the other; [None] when one of
    them cannot happen where it stands. *)
Fixpoint run (events : list Event) (st : State) : option State :=
  match events with
  | [] => Some st
  | e :: events' =>
      match step e st with
      | Some st' => run events' st'
      | None => None
      end
  end.
End Steps.

Definition isCall (e : Event) : bool :=
  match e with
  | Call => true
  | _ => false
  end.

Definition isDone (l : Load) : bool :=
  match l with
  | LoadDone => true
  | _ => false
  end.

(** Every call of loadArticles has run to its end. *)
Definition settled (st : State) : bool := forallb isDone (loads st).

(** How many times [file] has been fetched. *)
Definition fetchCount (st : State) (file : string) : nat :=
  count_occ string_dec (fetches st) file.

(** No event of the schedule is a call of getArticles. *)
Definition noCalls (events : list Event) : bool :=
  forallb (fun e => negb (isCall e)) events.

(** How many fetches of [file] a call of loadArticles has issued when it
    stands at [l]: those of the files that are no longer to come. *)
Definition issued (articleFiles : list string) (file : string) (l : Load)
  : nat :=
  match l with
  | AwaitFiles => 0
  | AwaitArticle _ rest _ =>
      count_occ string_dec articleFiles file - count_occ string_dec rest file
  | LoadDone => count_occ string_dec articleFiles file
  end.

(** A call of loadArticles that waits for [file] has [file] and [rest]
    left of the files and holds what the files before them loaded. *)
Definition onTrack `{Runtime} (source : Source) (articleFiles : list string)
    (l : Load) : Prop :=
  match l with
  | AwaitArticle file rest loaded =>
      exists done,
        articleFiles = done ++ file :: rest /\ loaded = loadEach source done
  | _ => True
  end.

(** What every state reached from [created] satisfies. *)
Record Invariant `{Runtime} (source : Source) (articleFiles : list string)
    (st : State) : Prop := {
  inv_loads : Forall (onTrack source articleFiles) (loads st);
  inv_fetches : forall file,
    fetchCount st file = list_sum (map (issued articleFiles file) (loads st));
  inv_index :
    existsb isDone (loads st) = true ->
    index st = loadArticlesOf articleFiles source
}.

End Async.

(** ** What the statements below speak of *)

Module Spec.

Import JsString JsArray Excerpt ArticlesService Async.
Local Open Scope string_scope.
Local Open Scope Z_scope.

(** [b] is not dated after [a], both dates being valid. *)
Definition notAfter `{Runtime} (b a : ArticleMetadata) : Prop :=
  match timeOf b, timeOf a with
  | Some tb, Some ta => tb <= ta
  | _, _ => False
  end.

Definition validDate `{Runtime} (a : Article) : Prop :=
  timeOf (metadata a) <> None.

(** The time value of the date of [a], as the sort takes it. *)
Definition timeKey `{Runtime} (a : Article) : Z :=
  cmpValue (timeOf (metadata a)).

(** The articles of [l] whose date has the time value [t]. *)
Definition datedAt `{Runtime} (t : Z) (l : list Article) : list Article :=
  filter (fun a => match timeOf (metadata a) with
                   | Some u => u =? t
                   | None => false
                   end) l.

Definition slugOf (a : Article) : string := slug (metadata a).

(** [q] occurs in [s] when case is ignored: some stretch of [s] has the
    lower case of [q]. *)
Definition occursIgnoringCase (q s : string) : Prop :=
  exists pre mid post,
    s = pre ++ mid ++ post /\ toLowerCase mid = toLowerCase q.

Definition setQuery (params : ArticleSearchParams) (q : option string)
  : ArticleSearchParams :=
  {| query := q; tag := tag params; page := page params;
     sortBy := sortBy params; sortOrder := sortOrder params |}.

Definition setPage (params : ArticleSearchParams) (p : Z)
  : ArticleSearchParams :=
  {| query := query params; tag := tag params; page := Some p;
     sortBy := sortBy params; sortOrder := sortOrder params |}.

(** The slice that makes page [p], for pages of [size] articles. *)
Definition pageSlice {A : Type} (size : Z) (l : list A) (p : Z) : list A :=
  slice l ((p - 1) * size) ((p - 1) * size + size).

(** The page numbers [1 .. n]. *)
Definition pagesUpTo (n : Z) : list Z :=
  map Z.of_nat (seq 1 (Z.to_nat n)).

(** All the tags of the index, article after article. *)
Definition allTagsOf (idx : list Article) : list string :=
  flat_map (fun a => tags (metadata a)) idx.

(** The distinct elements of [l] in the order of their first occurrence;
    [seen] are those met before. *)
Fixpoint firstSeen (seen : list string) (l : list string) : list string :=
  match l with
  | [] => []
  | t :: l' =>
      if existsb (String.eqb t) seen then firstSeen seen l'
      else t :: firstSeen (t :: seen) l'
  end.

Definition occurrences (t : string) (l : list string) : Z :=
  Z.of_nat (count_occ string_dec l t).

(** One more for the entry of [t]. *)
Definition bump (t : string) (e : string * Z) : string * Z :=
  if String.eqb (fst e) t then (fst e, snd e + 1) else e.

Definition tagCountOf (e : string * Z) : TagCount :=
  {| tagName := fst e; count := snd e |}.

(** The articles of [idx] that carry the tag [t]. *)
Definition carrying (t : string) (idx : list Article) : list Article :=
  filter (fun a => hasTag (tags (metadata a)) t) idx.

Definition nl : string := String LF "".

(** A runtime for the examples: dates are decimal numbers of days, titles
    compare as [String.compare] has them, a slug is the lower-case title. *)
Definition digitsValue (s : string) : option Z :=
  match s with
  | "" => None
  | _ =>
      fold_left
        (fun acc c =>
           match acc with
           | Some v =>
               let n := Z.of_N (N_of_ascii c) in
               if (48 <=? n) && (n <=? 57) then Some (10 * v + (n - 48))
               else None
           | None => None
           end)
        (list_ascii_of_string s) (Some 0)
  end.

Definition exampleRuntime : Runtime := {|
  slugify := toLowerCase;
  dateTime := digitsValue;
  localeCompare := fun a b =>
    match String.compare a b with
    | Lt => -1
    | Eq => 0
    | Gt => 1
    end
|}.

Definition exampleData (t d : string) (ts : list string) (s : option string)
  : FrontMatter :=
  {| fmTitle := Some t; fmDate := Some d; fmTags := Some ts;
     fmSummary := None; fmAuthor := Some "A"; fmSlug := s |}.

(** A document source with three good documents, two of which declare the
    same slug, one without a title and one that is not there. *)
Definition exampleSource : Source := fun url =>
  if String.eqb url (urlOf "apache-execcgi-fpm.md")
  then Parsed (exampleData "Apache" "20" ["web"; "web"; "cgi"] (Some "same"))
              "abcd efgh"
  else if String.eqb url (urlOf "linux-performance-monitoring.md")
  then Parsed (exampleData "Linux" "30" ["perf"] (Some "same")) "Linux body"
  else if String.eqb url (urlOf "ai-model-deployment-kubernetes.md")
  then Parsed (exampleData "" "40" [] None) "no title"
  else if String.eqb url (urlOf "docker-optimization-production.md")
  then Parsed (exampleData "Docker" "20" ["web"; "perf"] None) "Docker body"
  else NotOk.

(** A schedule for three calls of loadArticles: they go on in turn until
    they are through, and the two callers of getArticles get their
    result. *)
Definition inTurn : list Event :=
  (List.concat (repeat [Resume 0; Resume 1; Resume 2] 6)
   ++ [Return 0; Return 1])%list.

(** Two callers call getArticles one after the other, then [inTurn]. *)
Definition twoCallers : list Event := (repeat Call 2 ++ inTurn)%list.

(** Three documents, the second of which has a date that is no date; the
    first and the third declare the same slug. *)
Definition undatedFiles : list string := ["a.md"; "b.md"; "c.md"].

Definition undatedSource : Source := fun url =>
  if String.eqb url (urlOf "a.md")
  then Parsed (exampleData "A" "2021" [] (Some "same")) "first"
  else if String.eqb url (urlOf "b.md")
  then Parsed (exampleData "B" "x" [] None) "second"
  else if String.eqb url (urlOf "c.md")
  then Parsed (exampleData "C" "2022" [] (Some "same")) "third"
  else NotOk.

End Spec.

(** ** The components that call the service *)

Module Callers.

Import JsString JsArray ArticlesService.
Local Open Scope string_scope.
Local Open Scope Z_scope.

(** [s.replace(pattern, replacement)] for a pattern that is a string: the
    first occurrence is replaced, and [s] comes back as it is when there is
    none. *)
Fixpoint replaceFirst (pattern replacement : string) (s : string) : string :=
  if String.prefix pattern s
  then replacement ++ drop (String.length pattern) s
  else match s with
       | "" => ""
       | String c s' => String c (replaceFirst pattern replacement s')
       end.

(** The effect of App on [location.pathname]: the slug for which
    addArticleTab is called, if the path is that of an article. *)
Definition articleSlugOf (currentPath : string) : option string :=
  if String.prefix "/article/" currentPath
  then Some (replaceFirst "/article/" "" currentPath)
  else None.

(** The search state of BlogIndex. *)
Record SearchState : Type := {
  searchQuery : string;
  selectedTag : string;
  stateSortBy : SortKey;
  stateSortOrder : SortOrder;
  statePage : Z
}.

(** [text || undefined] *)
Definition orUndefined (text : string) : option string :=
  if String.eqb text "" then None else Some text.

(** The parameters that BlogIndex passes to searchArticles. *)
Definition searchParamsOf (st : SearchState) : ArticleSearchParams := {|
  query := orUndefined (searchQuery st);
  tag := orUndefined (selectedTag st);
  sortBy := Some (stateSortBy st);
  sortOrder := Some (stateSortOrder st);
  page := Some (statePage st)
|}.

Definition handleSearchChange (value : string) (st : SearchState)
  : SearchState := {|
  searchQuery := value;
  selectedTag := selectedTag st;
  stateSortBy := stateSortBy st;
  stateSortOrder := stateSortOrder st;
  statePage := 1
|}.

Definition handleTagFilter (t : string) (st : SearchState) : SearchState := {|
  searchQuery := searchQuery st;
  selectedTag := if String.eqb t (selectedTag st) then "" else t;
  stateSortBy := stateSortBy st;
  stateSortOrder := stateSortOrder st;
  statePage := 1
|}.

Definition handleClearFilters (st : SearchState) : SearchState := {|
  searchQuery := "";
  selectedTag := "";
  stateSortBy := ByDate;
  stateSortOrder := Desc;
  statePage := 1
|}.

End Callers.

(** ** Further notions for the statements *)

Module Notions.

Import JsString JsArray Excerpt ArticlesService Async.
Local Open Scope string_scope.
Local Open Scope Z_scope.

(** The number of words of [s], a word being a maximal run of code units
    that are not white space; [inWord] tells that the code unit before [s]
    belongs to a word. *)
Fixpoint countWords (inWord : bool) (s : string) : Z :=
  match s with
  | "" => 0
  | String c s' =>
      if isWhiteSpace c then countWords false s'
      else (if inWord then 0 else 1) + countWords true s'
  end.

(** The last code unit of [s] is not white space; for the empty [s] it is
    [inWord] that tells. *)
Fixpoint endsInWord (inWord : bool) (s : string) : bool :=
  match s with
  | "" => inWord
  | String c s' => endsInWord (negb (isWhiteSpace c)) s'
  end.

Definition SPACE : ascii := " "%char.

(** The white space of [s] is made of single spaces: no other white space
    code unit, and no two spaces in a row; [afterSpace] tells that the code
    unit before [s] is a space. *)
Fixpoint singleSpaced (afterSpace : bool) (s : string) : bool :=
  match s with
  | "" => true
  | String c s' =>
      if isWhiteSpace c
      then Ascii.eqb c SPACE && negb afterSpace && singleSpaced true s'
      else singleSpaced false s'
  end.

Definition startsInWord (s : string) : bool :=
  match s with
  | "" => true
  | String c _ => negb (isWhiteSpace c)
  end.

(** The code units that start a match of one of the expressions of
    extractExcerpt other than the one for white space. *)
Definition isMarkup (c : ascii) : bool :=
  Ascii.eqb c "#" || Ascii.eqb c "*" || Ascii.eqb c "`" || Ascii.eqb c "["
  || Ascii.eqb c LF.

Fixpoint forallChars (p : ascii -> bool) (s : string) : bool :=
  match s with
  | "" => true
  | String c s' => p c && forallChars p s'
  end.

(** Text that extractExcerpt has nothing to do on: no markup, single
    spaces between the words, no space at either end. *)
Definition plain (s : string) : bool :=
  forallChars (fun c => negb (isMarkup c)) s
  && singleSpaced false s && startsInWord s && endsInWord true s.

(** The last element of a list, if any. *)
Definition lastOf {A : Type} (l : list A) : option A := hd_error (rev l).

(** The parameters of a search without any setting. *)
Definition noParams : ArticleSearchParams :=
  {| query := None; tag := None; page := None;
     sortBy := None; sortOrder := None |}.

Definition setTag (params : ArticleSearchParams) (t : option string)
  : ArticleSearchParams :=
  {| query := query params; tag := t; page := page params;
     sortBy := sortBy params; sortOrder := sortOrder params |}.

(** The time value of the date of a list item, as the sort takes it. *)
Definition itemTime `{Runtime} (a : ArticleListItem) : Z :=
  cmpValue (timeOf (itemMetadata a)).

Definition validItem `{Runtime} (a : ArticleListItem) : Prop :=
  timeOf (itemMetadata a) <> None.

(** What loadSingleArticle makes of a document, whatever the document. *)
Definition wellFormed (files : list string) (a : Article) : Prop :=
  title (metadata a) <> "" /\
  date (metadata a) <> "" /\
  author (metadata a) <> "" /\
  In (filename a) files /\
  path a = "/article/" ++ slug (metadata a) /\
  excerpt a = extractExcerpt (content a) 200 /\
  JsString.length (excerpt a) <= 203 /\
  readingTime a = calculateReadingTime (content a) /\
  1 <= readingTime a.

(** Every caller that has its result has [idx] as the result. *)
Definition allReturned (idx : list Article) (cs : list Caller) : Prop :=
  Forall (fun c => match c with
                   | Returned r => r = idx
                   | AwaitLoad _ => True
                   end) cs.

(** How many times a call of loadArticles that stands at [l] has to be
    resumed to be through. *)
Definition stepsLeft (files : list string) (l : Load) : nat :=
  match l with
  | AwaitFiles => S (List.length files)
  | AwaitArticle _ rest _ => S (List.length rest)
  | LoadDone => O
  end.

(** The index is empty or is what a load yields, and so is every result
    that a caller has got. *)
Definition consistent `{Runtime} (source : Source) (files : list string)
    (st : State) : Prop :=
  Invariant source files st /\
  (index st = [] \/ index st = loadArticlesOf files source) /\
  allReturned (loadArticlesOf files source) (callers st).

End Notions.

Import JsString JsArray Excerpt ArticlesService Async Spec.
Local Open Scope string_scope.
Local Open Scope Z_scope.

(** * Properties *)

(** ** The embedding at work *)

Example plainTextOf_markdown :
  plainTextOf ("## Title" ++ nl ++ nl
               ++ "Some **bold** and *italic* `code`, a [link](http://x.y)."
               ++ nl ++ "   end  ")
  = "Title Some bold and italic code, a link. end".
Proof. reflexivity. Qed.

(** Of a run of eight [#] the header expression takes the last six. *)
Example plainTextOf_long_header :
  plainTextOf "######## x" = "##x".
Proof. reflexivity. Qed.

(** The inline code expression runs before the one for fenced blocks and
    eats two of the three backquotes of a fence. *)
Example plainTextOf_fence :
  plainTextOf ("```" ++ nl ++ "ls" ++ nl ++ "```") = "` ls `".
Proof. reflexivity. Qed.

Example extractExcerpt_short : extractExcerpt "abcde fgh" 9 = "abcde fgh".
Proof. reflexivity. Qed.

Example extractExcerpt_backs_up : extractExcerpt "abcde fgh" 6 = "abcde...".
Proof. reflexivity. Qed.

Example extractExcerpt_hard : extractExcerpt "abcde fgh" 8 = "abcde fg...".
Proof. reflexivity. Qed.

Example calculateReadingTime_empty : calculateReadingTime "" = 1.
Proof. reflexivity. Qed.

Example slice_from_end : slice [1; 2; 3; 4; 5] (-2) 5 = [4; 5].
Proof. reflexivity. Qed.

(** Two equal dates keep their order; the newest comes first. *)
Example loadArticles_example :
  map (fun a => (date (metadata a), filename a))
    (@loadArticles exampleRuntime exampleSource)
  = [ ("30", "linux-performance-monitoring.md");
      ("20", "apache-execcgi-fpm.md");
      ("20", "docker-optimization-production.md") ].
Proof. reflexivity. Qed.

(** ** Strings *)

Section StringFacts.

Lemma length_append (a b : string) :
String.length (a ++ b) = (String.length a + String.length b)%nat.
Proof.
induction a as [|c a IH]; simpl; [reflexivity | now rewrite IH].
Qed.

Lemma length_take (n : nat) (s : string) :
String.length (take n s) = Nat.min n (String.length s).
Proof.
revert s; induction n as [|n IH]; intros [|c s]; simpl; auto.
Qed.

Lemma take_all (n : nat) (s : string) :
(String.length s <= n)%nat -> take n s = s.
Proof.
revert s; induction n as [|n IH]; intros [|c s]; simpl; intros Hn;
  try reflexivity; try lia.
now rewrite IH by lia.
Qed.

Lemma take_take (n m : nat) (s : string) :
(n <= m)%nat -> take n (take m s) = take n s.
Proof.
revert m s; induction n as [|n IH]; intros [|m] [|c s] Hnm; simpl;
  try reflexivity; try lia.
now rewrite IH by lia.
Qed.

Lemma get_take (n k : nat) (s : string) :
(k < n)%nat -> String.get k (take n s) = String.get k s.
Proof.
revert k s; induction n as [|n IH]; intros k [|c s] Hk; simpl;
  try reflexivity; try lia.
destruct k as [|k]; [reflexivity | apply IH; lia].
Qed.

(** [substring(0, b)] keeps the first [b] code units. *)
Lemma substring_from_start (s : string) (b : Z) :
substring s 0 b = take (Z.to_nat b) s.
Proof.
unfold substring, JsString.length.
set (len := Z.of_nat (String.length s)).
assert (Hlen : 0 <= len) by (subst len; lia).
replace (Z.min (Z.max 0 0) len) with 0 by lia.
set (b' := Z.min (Z.max b 0) len).
replace (Z.min 0 b') with 0 by (subst b'; lia).
replace (Z.max 0 b' - 0) with b' by (subst b'; lia).
change (drop (Z.to_nat 0) s) with s.
destruct (Z_le_gt_dec b len) as [Hb|Hb].
- f_equal. subst b'. lia.
- rewrite !take_all; auto; subst b' len; lia.
Qed.

Lemma lastIndexFrom_spec (c : ascii) (s : string) (i last : Z) :
let r := lastIndexFrom i last c s in
(r = last /\ forall k, String.get k s <> Some c) \/
(i <= r < i + Z.of_nat (String.length s) /\
 String.get (Z.to_nat (r - i)) s = Some c /\
 forall k, (Z.to_nat (r - i) < k)%nat -> String.get k s <> Some c).
Proof.
revert i last; induction s as [|d s IH]; intros i last; simpl.
- left; split; [reflexivity | intros k; destruct k; discriminate].
- destruct (IH (i + 1) (if Ascii.eqb d c then i else last))
    as [[Hr Hno] | (Hrange & Hget & Hafter)].
  + destruct (Ascii.eqb_spec d c) as [->|Hdc].
    * right. rewrite Hr. split; [lia|].
      replace (Z.to_nat (i - i)) with O by lia. split; [reflexivity|].
      intros [|k] Hk; [lia | apply Hno].
    * left. split; [exact Hr|].
      intros [|k]; [intros [= E]; contradiction | apply Hno].
  + right. split; [lia|].
    replace (Z.to_nat (lastIndexFrom (i + 1)
               (if Ascii.eqb d c then i else last) c s - i))
      with (S (Z.to_nat (lastIndexFrom (i + 1)
               (if Ascii.eqb d c then i else last) c s - (i + 1)))) by lia.
    split; [exact Hget|].
    intros [|k] Hk; [lia | apply Hafter; lia].
Qed.

(** [lastIndexOf] returns [-1] when the code unit does not occur, and its
  last position otherwise. *)
Lemma lastIndexOf_spec (s : string) (c : ascii) :
let r := lastIndexOf s c in
(r = -1 /\ forall k, String.get k s <> Some c) \/
(0 <= r < JsString.length s /\
 String.get (Z.to_nat r) s = Some c /\
 forall k, (Z.to_nat r < k)%nat -> String.get k s <> Some c).
Proof.
unfold lastIndexOf, JsString.length.
destruct (lastIndexFrom_spec c s 0 (-1)) as [H | (H1 & H2 & H3)];
  [left; exact H | right].
rewrite Z.sub_0_r in H2, H3. repeat split; auto; lia.
Qed.

Lemma lastIndexOf_range (s : string) (c : ascii) :
-1 <= lastIndexOf s c < Z.max 0 (JsString.length s).
Proof.
unfold JsString.length.
destruct (lastIndexOf_spec s c) as [[H _] | [H _]];
  unfold JsString.length in *; lia.
Qed.

End StringFacts.

(** ** The excerpt *)

(** C6. For every body and every maximum length [L], the excerpt has at
    most [L] code units plus those of the ellipsis marker. *)
Theorem extractExcerpt_length_bound (body : string) (L : nat) :
  JsString.length (extractExcerpt body (Z.of_nat L))
    <= Z.of_nat L + JsString.length ellipsis.
Proof.
  unfold extractExcerpt.
  destruct (Z.leb_spec (JsString.length (plainTextOf body)) (Z.of_nat L))
    as [Hshort | Hlong].
  - unfold JsString.length in *; simpl; lia.
  - set (truncated := substring (plainTextOf body) 0 (Z.of_nat L)).
    assert (Htr : JsString.length truncated = Z.of_nat L).
    { unfold truncated, JsString.length in *.
      rewrite substring_from_start, length_take. lia. }
    pose proof (lastIndexOf_range truncated " ") as Hidx.
    destruct (4 * Z.of_nat L <? 5 * lastIndexOf truncated " ").
    + unfold JsString.length in *.
      rewrite length_append, substring_from_start, length_take. lia.
    + unfold JsString.length in *. rewrite length_append. lia.
Qed.

(** C7, as the code has it. When the plain text of the body is longer than
    [L], the excerpt is the ellipsis marker after a prefix of the plain
    text: the first [L] code units, or, when the last space among them
    stands strictly beyond 80% of [L], what comes before that space. A space
    standing exactly at 80% of [L] does not make the excerpt back up. *)
Theorem extractExcerpt_truncation (body : string) (L : nat) :
  Z.of_nat L < JsString.length (plainTextOf body) ->
  let plain := plainTextOf body in
  let truncated := take L plain in
  let i := lastIndexOf truncated " " in
  String.length truncated = L /\
  (4 * Z.of_nat L < 5 * i ->
     extractExcerpt body (Z.of_nat L) = take (Z.to_nat i) plain ++ ellipsis /\
     String.get (Z.to_nat i) plain = Some " "%char /\
     (forall k, (Z.to_nat i < k < L)%nat ->
        String.get k plain <> Some " "%char)) /\
  (5 * i <= 4 * Z.of_nat L ->
     extractExcerpt body (Z.of_nat L) = truncated ++ ellipsis).
Proof.
  intros Hlong plain truncated i.
  assert (Hlen : String.length truncated = L).
  { unfold truncated, JsString.length in *. rewrite length_take.
    fold plain in Hlong. lia. }
  unfold extractExcerpt. fold plain.
  destruct (Z.leb_spec (JsString.length plain) (Z.of_nat L)) as [H|_];
    [fold plain in Hlong; lia|].
  rewrite (substring_from_start plain), Nat2Z.id.
  fold truncated. fold i.
  split; [exact Hlen|]. split.
  - intros Hfar.
    destruct (Z.ltb_spec (4 * Z.of_nat L) (5 * i)) as [_|H]; [|lia].
    destruct (lastIndexOf_spec truncated " ")
      as [[Hi _] | (Hr & Hget & Hafter)];
      [fold i in Hi; lia | fold i in Hr, Hget, Hafter].
    unfold JsString.length in Hr. rewrite Hlen in Hr.
    rewrite substring_from_start.
    unfold truncated at 1. rewrite take_take by lia.
    split; [reflexivity|]. split.
    + rewrite <- Hget. unfold truncated. symmetry. apply get_take. lia.
    + intros k Hk. unfold truncated in Hafter.
      rewrite <- (get_take L k plain) by lia. apply Hafter. lia.
  - intros Hnear.
    destruct (Z.ltb_spec (4 * Z.of_nat L) (5 * i)) as [H|_]; [lia|].
    reflexivity.
Qed.

(** The body ["abcde fgh"] with [L = 6]: the last space of ["abcde "] is at
    5, beyond 4.8. *)
Lemma extractExcerpt_truncation_witness :
  6 < JsString.length (plainTextOf "abcde fgh") /\
  extractExcerpt "abcde fgh" 6 = "abcde...".
Proof.
  assert (Hlong : Z.of_nat 6 < JsString.length (plainTextOf "abcde fgh"))
    by (vm_compute; reflexivity).
  split; [exact Hlong|].
  destruct (extractExcerpt_truncation "abcde fgh" 6 Hlong)
    as (_ & Hback & _).
  destruct Hback as (H & _); [vm_compute; reflexivity | exact H].
Defined.

(** C7 as stated fails where the last space stands exactly at 80% of the
    maximum length: for the body ["abcd efgh"] and [L = 5] the space is at
    position 4, which is at 80% of 5, and the excerpt keeps the hard
    truncation ["abcd "] instead of backing up to ["abcd"]. *)
Lemma extractExcerpt_boundary_at_80_percent :
  let body := "abcd efgh" in
  let L := 5 in
  let truncated := substring (plainTextOf body) 0 L in
  let boundary := lastIndexOf truncated " " in
  L < JsString.length (plainTextOf body) /\
  5 * boundary >= 4 * L /\
  extractExcerpt body L <> substring truncated 0 boundary ++ ellipsis /\
  extractExcerpt body L = "abcd ...".
Proof.
  vm_compute. repeat split; try discriminate.
Qed.

(** ** The sort *)

Section SortFacts.
Context {A : Type} (cmp : A -> A -> option Z).

Lemma insert_perm (x : A) (l : list A) :
  Permutation (insert cmp x l) (x :: l).
Proof.
  induction l as [|y l IH]; simpl; [reflexivity|].
  destruct (cmpValue (cmp x y) <=? 0); [reflexivity|].
  rewrite IH. apply perm_swap.
Qed.

Lemma sort_perm (l : list A) : Permutation (sort cmp l) l.
Proof.
  induction l as [|x l IH]; simpl; [reflexivity|].
  rewrite insert_perm. now constructor.
Qed.

(** On a set [P] of elements where the comparator orders by decreasing
    [key], the sort yields decreasing keys and leaves elements of equal
    key in the order they had. *)
Context (key : A -> Z) (P : A -> Prop).
Hypothesis cmp_key :
  forall x y, P x -> P y -> (cmpValue (cmp x y) <= 0 <-> key y <= key x).

Let decreasing (a b : A) : Prop := key b <= key a.

Lemma insert_sorted (x : A) (l : list A) :
  P x -> Forall P l ->
  StronglySorted decreasing l -> StronglySorted decreasing (insert cmp x l).
Proof.
  intros Px Pl Hs. induction Hs as [|y l Hs IH Hy]; simpl.
  - repeat constructor.
  - inversion Pl as [|? ? Py Pl']; subst.
    destruct (Z.leb_spec (cmpValue (cmp x y)) 0) as [Hle|Hgt].
    + apply cmp_key in Hle; auto.
      constructor; [now constructor|].
      constructor; [exact Hle|].
      eapply Forall_impl; [|exact Hy].
      intros z Hz. unfold decreasing in *. lia.
    + assert (Hxy : key x < key y).
      { destruct (Z_lt_le_dec (key x) (key y)) as [?|Hc]; [assumption|].
        apply cmp_key in Hc; auto. lia. }
      constructor; [now apply IH|].
      eapply Permutation_Forall; [symmetry; apply insert_perm|].
      constructor; [unfold decreasing; lia | exact Hy].
Qed.

Lemma sort_sorted (l : list A) :
  Forall P l -> StronglySorted decreasing (sort cmp l).
Proof.
  induction l as [|x l IH]; intros Pl; simpl; [constructor|].
  inversion Pl; subst.
  apply insert_sorted; auto.
  eapply Permutation_Forall; [symmetry; apply sort_perm | assumption].
Qed.

Lemma insert_stable (k : Z) (x : A) (l : list A) :
  P x -> Forall P l ->
  filter (fun a => key a =? k) (insert cmp x l)
  = filter (fun a => key a =? k) (x :: l).
Proof.
  intros Px Pl. induction Pl as [|y l Py Pl IH]; simpl; [reflexivity|].
  destruct (Z.leb_spec (cmpValue (cmp x y)) 0) as [Hle|Hgt];
    [reflexivity|].
  assert (Hxy : key x < key y).
  { destruct (Z_lt_le_dec (key x) (key y)) as [?|Hc]; [assumption|].
    apply cmp_key in Hc; auto. lia. }
  simpl. rewrite IH. simpl.
  destruct (Z.eqb_spec (key x) k), (Z.eqb_spec (key y) k);
    try reflexivity; lia.
Qed.

Lemma sort_stable (k : Z) (l : list A) :
  Forall P l ->
  filter (fun a => key a =? k) (sort cmp l) = filter (fun a => key a =? k) l.
Proof.
  induction l as [|x l IH]; intros Pl; simpl; [reflexivity|].
  inversion Pl; subst.
  rewrite insert_stable; auto.
  - simpl. now rewrite IH.
  - eapply Permutation_Forall; [symmetry; apply sort_perm | assumption].
Qed.
End SortFacts.

Lemma sorted_adjacent {A : Type} (R : A -> A -> Prop) (l : list A) :
  StronglySorted R l ->
  forall i a b, nth_error l i = Some a -> nth_error l (S i) = Some b -> R a b.
Proof.
  induction 1 as [|x l Hs IH Hx]; intros i a b Ha Hb.
  - destruct i; discriminate.
  - destruct i as [|i]; simpl in *.
    + injection Ha as <-. destruct l as [|y l]; [discriminate|].
      injection Hb as <-. now inversion Hx.
    + eapply IH; eassumption.
Qed.

(** ** The load *)

Section LoadFacts.
Context `{Runtime}.

Lemma newestFirst_key (x y : Article) :
  validDate x -> validDate y ->
  (cmpValue (newestFirst x y) <= 0 <-> timeKey y <= timeKey x).
Proof.
  unfold validDate, newestFirst, timeKey.
  destruct (timeOf (metadata x)), (timeOf (metadata y)); simpl;
    intros Hx Hy; try contradiction; lia.
Qed.

Lemma datedAt_key (t : Z) (l : list Article) :
  Forall validDate l -> datedAt t l = filter (fun a => timeKey a =? t) l.
Proof.
  intros Hl. unfold datedAt. apply filter_ext_in.
  intros a Ha. rewrite Forall_forall in Hl. specialize (Hl a Ha).
  unfold validDate, timeKey in *.
  destruct (timeOf (metadata a)); [reflexivity | contradiction].
Qed.

Lemma loadArticlesOf_perm (files : list string) (source : Source) :
  Permutation (loadArticlesOf files source) (loadEach source files).
Proof. apply sort_perm. Qed.
End LoadFacts.

(** C1, as the code has it. The loader takes any date that is not empty.
    After a load whose articles all have valid dates, no article of the
    index is dated after the one before it, and the articles of one date
    stand in the order in which their documents were processed. *)
Theorem loadArticles_newest_first `{Runtime}
    (files : list string) (source : Source) :
  let idx := loadArticlesOf files source in
  Forall validDate idx ->
  (forall i a b,
      nth_error idx i = Some a -> nth_error idx (S i) = Some b ->
      notAfter (metadata b) (metadata a)) /\
  (forall t, datedAt t idx = datedAt t (loadEach source files)).
Proof.
  intros idx Hvalid.
  assert (Hloaded : Forall validDate (loadEach source files)).
  { eapply Permutation_Forall; [apply loadArticlesOf_perm | exact Hvalid]. }
  split.
  - intros i a b Ha Hb.
    pose proof (sort_sorted newestFirst timeKey validDate newestFirst_key
                  (loadEach source files) Hloaded) as Hs.
    pose proof (sorted_adjacent _ _ Hs i a b Ha Hb) as Hab.
    rewrite Forall_forall in Hvalid.
    assert (Va : validDate a) by (apply Hvalid; eapply nth_error_In; eauto).
    assert (Vb : validDate b) by (apply Hvalid; eapply nth_error_In; eauto).
    unfold notAfter, validDate, timeKey in *.
    destruct (timeOf (metadata a)), (timeOf (metadata b));
      simpl in *; try contradiction; lia.
  - intros t. rewrite !datedAt_key by assumption.
    apply (sort_stable newestFirst timeKey validDate newestFirst_key);
      assumption.
Qed.

(** The example source: the two articles dated 20 keep the order of their
    files, after the one dated 30. *)
Lemma loadArticles_newest_first_witness :
  Forall (@validDate exampleRuntime) (@loadArticles exampleRuntime exampleSource)
  /\ map filename (@loadArticles exampleRuntime exampleSource)
     = [ "linux-performance-monitoring.md"; "apache-execcgi-fpm.md";
         "docker-optimization-production.md" ]
  /\ @datedAt exampleRuntime 20 (@loadArticles exampleRuntime exampleSource)
     = @datedAt exampleRuntime 20
         (@loadEach exampleRuntime exampleSource getArticleFiles).
Proof.
  assert (Hv : Forall (@validDate exampleRuntime)
                 (@loadArticles exampleRuntime exampleSource)).
  { repeat constructor; discriminate. }
  split; [exact Hv|]. split; [reflexivity|].
  exact (proj2 (@loadArticles_newest_first exampleRuntime getArticleFiles
                  exampleSource Hv) 20).
Defined.

(** C1 as stated fails when a document has a date that is no date: the
    loader keeps it, its time value is [NaN], and the sort leaves the three
    documents of [undatedSource] as they came, the one of 2021 before the
    one of 2022, with the undated one between them. *)
Lemma loadArticles_invalid_date_unsorted :
  let idx := @loadArticlesOf exampleRuntime undatedFiles undatedSource in
  map (fun a => (filename a, date (metadata a))) idx
  = [ ("a.md", "2021"); ("b.md", "x"); ("c.md", "2022") ] /\
  (exists a b,
      nth_error idx 0 = Some a /\ nth_error idx 1 = Some b /\
      ~ @notAfter exampleRuntime (metadata b) (metadata a)) /\
  (exists a c,
      nth_error idx 0 = Some a /\ nth_error idx 2 = Some c /\
      @timeOf exampleRuntime (metadata a) = Some 2021 /\
      @timeOf exampleRuntime (metadata c) = Some 2022).
Proof.
  intros idx. split; [reflexivity|]. split.
  - eexists. eexists. split; [reflexivity|]. split; [reflexivity|].
    vm_compute. tauto.
  - eexists. eexists. repeat split.
Qed.

(** ** Slugs *)

Section SlugFacts.
Context `{Runtime}.

Lemma find_first {A : Type} (p : A -> bool) (l : list A) :
  match List.find p l with
  | Some a =>
      exists pre post,
        l = (pre ++ a :: post)%list /\ p a = true /\
        Forall (fun b => p b = false) pre
  | None => Forall (fun b => p b = false) l
  end.
Proof.
  induction l as [|x l IH]; simpl; [constructor|].
  destruct (p x) eqn:Hx.
  - exists [], l. repeat split; auto.
  - destruct (List.find p l) as [a|].
    + destruct IH as (pre & post & -> & Ha & Hpre).
      exists (x :: pre), post. repeat split; auto.
    + now constructor.
Qed.

Lemma sorted_after_prefix {A : Type} (R : A -> A -> Prop)
    (pre post : list A) (a : A) :
  StronglySorted R (pre ++ a :: post)%list -> Forall (R a) post.
Proof.
  induction pre as [|x pre IH]; simpl; intros Hs; inversion Hs; subst; auto.
Qed.

(** The loop of the load pushes, file after file, the article that
    loadSingleArticle returns, and nothing when it returns none. *)
Lemma loadEach_pushes (source : Source) (files : list string) :
  loadEach source files
  = flat_map (fun file => match loadSingleArticle source file with
                          | Some a => [a]
                          | None => []
                          end) files.
Proof.
  induction files as [|file files IH]; simpl; [reflexivity|].
  destruct (loadSingleArticle source file); simpl; now rewrite IH.
Qed.

Lemma filter_length_perm {A : Type} (p : A -> bool) (l l' : list A) :
  Permutation l l' ->
  List.length (filter p l) = List.length (filter p l').
Proof.
  induction 1 as [|x l l' Hp IH|x y l|l l' l'' H1 IH1 H2 IH2]; simpl.
  - reflexivity.
  - destruct (p x); simpl; now rewrite IH.
  - destruct (p x), (p y); reflexivity.
  - now rewrite IH1.
Qed.

Lemma loadArticlesOf_sorted (files : list string) (source : Source) :
  Forall validDate (loadArticlesOf files source) ->
  StronglySorted (fun a b => timeKey b <= timeKey a)
    (loadArticlesOf files source).
Proof.
  intros Hvalid.
  apply (sort_sorted newestFirst timeKey validDate newestFirst_key).
  eapply Permutation_Forall; [apply loadArticlesOf_perm | exact Hvalid].
Qed.
End SlugFacts.

(** C8, as the code has it. The load does not make slugs unique and
    overwrites nothing. The index holds, in some order, exactly what the
    loop pushes: for each file the article that loadSingleArticle returns
    for it, once, and nothing for a file that gives none. For every slug the
    index therefore has as many articles as there are files whose document
    loads with that slug, and its slugs are pairwise distinct exactly when
    those of the loaded documents are. *)
Theorem loadArticles_keeps_every_slug `{Runtime}
    (files : list string) (source : Source) :
  let idx := loadArticlesOf files source in
  let pushed := fun file => match loadSingleArticle source file with
                            | Some a => [a]
                            | None => []
                            end in
  Permutation idx (flat_map pushed files) /\
  (forall a, In a idx <->
             exists file, In file files /\
                          loadSingleArticle source file = Some a) /\
  (forall s,
      List.length (filter (fun a => String.eqb (slugOf a) s) idx)
      = List.length
          (filter (fun file => match loadSingleArticle source file with
                               | Some a => String.eqb (slugOf a) s
                               | None => false
                               end) files)) /\
  (NoDup (map slugOf idx) <-> NoDup (map slugOf (flat_map pushed files))).
Proof.
  intros idx pushed.
  assert (Hp : Permutation idx (flat_map pushed files)).
  { unfold idx, pushed. rewrite <- loadEach_pushes.
    apply loadArticlesOf_perm. }
  split; [exact Hp|]. split; [|split].
  - intros a. split.
    + intros Ha. apply (Permutation_in _ Hp) in Ha.
      apply in_flat_map in Ha as (file & Hfile & Ha). exists file.
      split; [exact Hfile|]. unfold pushed in Ha.
      destruct (loadSingleArticle source file) as [a'|]; [|contradiction].
      destruct Ha as [<- | []]. reflexivity.
    + intros (file & Hfile & Hload).
      apply (Permutation_in _ (Permutation_sym Hp)).
      apply in_flat_map. exists file. split; [exact Hfile|].
      unfold pushed. rewrite Hload. now left.
  - intros s. rewrite (filter_length_perm _ _ _ Hp). unfold pushed. clear.
    induction files as [|file files IH]; [reflexivity|].
    cbn [flat_map filter]. rewrite filter_app, length_app, IH.
    destruct (loadSingleArticle source file) as [a|]; cbn [filter];
      [|reflexivity].
    destruct (String.eqb (slugOf a) s); reflexivity.
  - split; apply Permutation_NoDup, Permutation_map;
      [exact Hp | symmetry; exact Hp].
Qed.

(** C8 as stated fails on the example source: its first two documents both
    declare the slug ["same"], and both are in the index after the load, the
    one processed first included. *)
Lemma loadArticles_slug_collision_kept :
  let idx := @loadArticles exampleRuntime exampleSource in
  map (fun a => (filename a, slugOf a)) idx
  = [ ("linux-performance-monitoring.md", "same");
      ("apache-execcgi-fpm.md", "same");
      ("docker-optimization-production.md", "docker") ]
  /\ ~ NoDup (map slugOf idx).
Proof.
  split; [reflexivity|].
  intros Hnd. vm_compute in Hnd.
  inversion Hnd as [|? ? Hin _]; subst. apply Hin. now left.
Qed.

(** C10, as the code has it. For every index and slug, getArticleBySlug
    returns the first article of the index that has the slug, and nothing
    when no article has it. When the index comes from a load, every article
    that a document gave is in it, those with the slug that are not returned
    too; and when the articles of that index have valid dates, no article
    with the slug is dated after the one returned. *)
Theorem getArticleBySlug_first `{Runtime} (idx : list Article) (s : string) :
  match getArticleBySlug idx s with
  | Some a =>
      exists pre post,
        idx = (pre ++ a :: post)%list /\ slugOf a = s /\
        Forall (fun b => slugOf b <> s) pre
  | None => Forall (fun b => slugOf b <> s) idx
  end /\
  forall files source,
    idx = loadArticlesOf files source ->
    (forall file b,
        In file files -> loadSingleArticle source file = Some b ->
        In b idx) /\
    (Forall validDate idx ->
     forall a b,
       getArticleBySlug idx s = Some a -> In b idx -> slugOf b = s ->
       notAfter (metadata b) (metadata a)).
Proof.
  assert (Hneq : forall l : list Article,
             Forall (fun b => String.eqb (slug (metadata b)) s = false) l ->
             Forall (fun b => slugOf b <> s) l).
  { intros l. apply Forall_impl. intros b Hb. now apply String.eqb_neq. }
  pose proof (find_first (fun a => String.eqb (slug (metadata a)) s) idx)
    as Hfind.
  fold (getArticleBySlug idx s) in Hfind.
  split.
  - destruct (getArticleBySlug idx s) as [a|]; [|now apply Hneq].
    destruct Hfind as (pre & post & Hidx & Ha & Hpre).
    exists pre, post. repeat split; auto. now apply String.eqb_eq.
  - intros files source Hidx. split.
    + intros file b Hfile Hload. rewrite Hidx.
      apply (Permutation_in _
               (Permutation_sym (loadArticlesOf_perm files source))).
      rewrite loadEach_pushes. apply in_flat_map. exists file.
      split; [exact Hfile|]. rewrite Hload. now left.
    + intros Hvalid a b Hget Hb Hs. rewrite Hget in Hfind.
      destruct Hfind as (pre & post & Hsplit & Ha & Hpre).
      pose proof (loadArticlesOf_sorted files source) as Hsorted.
      rewrite <- Hidx in Hsorted. specialize (Hsorted Hvalid).
      rewrite Hsplit in Hsorted.
      apply sorted_after_prefix in Hsorted.
      rewrite Forall_forall in Hvalid.
      assert (Va : validDate a).
      { apply Hvalid. rewrite Hsplit. apply in_elt. }
      assert (Vb : validDate b) by now apply Hvalid.
      assert (Hkey : timeKey b <= timeKey a).
      { rewrite Hsplit in Hb. apply in_app_or in Hb.
        destruct Hb as [Hb | [<- | Hb]].
        - apply Hneq in Hpre. rewrite Forall_forall in Hpre.
          now destruct (Hpre b Hb).
        - lia.
        - rewrite Forall_forall in Hsorted. now apply Hsorted. }
      unfold notAfter, validDate, timeKey in *.
      destruct (timeOf (metadata a)), (timeOf (metadata b));
        simpl in *; try contradiction; lia.
Qed.

(** On the example source the slug ["same"] finds the article dated 30;
    the article dated 20 that declares the same slug is in the index too,
    and it is not dated after the one found. *)
Lemma getArticleBySlug_first_witness :
  let idx := @loadArticles exampleRuntime exampleSource in
  Forall (@validDate exampleRuntime) idx /\
  option_map filename (getArticleBySlug idx "same")
  = Some "linux-performance-monitoring.md" /\
  exists a b,
    getArticleBySlug idx "same" = Some a /\
    @loadSingleArticle exampleRuntime exampleSource "apache-execcgi-fpm.md"
    = Some b /\
    In b idx /\ slugOf b = "same" /\
    @notAfter exampleRuntime (metadata b) (metadata a).
Proof.
  intros idx.
  assert (Hv : Forall (@validDate exampleRuntime) idx).
  { repeat constructor; discriminate. }
  split; [exact Hv|]. split; [reflexivity|].
  destruct (getArticleBySlug idx "same") as [a|] eqn:Hget; [|discriminate].
  destruct (@loadSingleArticle exampleRuntime exampleSource
              "apache-execcgi-fpm.md") as [b|] eqn:Hload; [|discriminate].
  destruct (proj2 (@getArticleBySlug_first exampleRuntime idx "same")
              getArticleFiles exampleSource eq_refl) as [Hkept Hnewest].
  assert (Hb : In b idx).
  { apply (Hkept "apache-execcgi-fpm.md" b); [now left | exact Hload]. }
  assert (Hs : slugOf b = "same").
  { vm_compute in Hload. now injection Hload as <-. }
  exists a, b. split; [reflexivity|]. split; [reflexivity|].
  split; [exact Hb|]. split; [exact Hs|].
  fold idx in Hget. exact (Hnewest Hv a b Hget Hb Hs).
Defined.

(** C10 as stated fails on an index that holds an article whose date is no
    date: of the two articles of [undatedSource] that declare the slug
    ["same"], the lookup returns the one of 2021, which stands first in the
    index, and not the one of 2022. *)
Lemma getArticleBySlug_not_newest :
  let idx := @loadArticlesOf exampleRuntime undatedFiles undatedSource in
  exists a c,
    getArticleBySlug idx "same" = Some a /\
    filename a = "a.md" /\
    @timeOf exampleRuntime (metadata a) = Some 2021 /\
    In c idx /\ slugOf c = "same" /\ filename c = "c.md" /\
    @timeOf exampleRuntime (metadata c) = Some 2022 /\
    ~ @notAfter exampleRuntime (metadata c) (metadata a).
Proof.
  intros idx. eexists. eexists.
  split; [reflexivity|]. split; [reflexivity|]. split; [reflexivity|].
  split; [right; right; left; reflexivity|].
  split; [reflexivity|]. split; [reflexivity|]. split; [reflexivity|].
  vm_compute. intros Hle. now apply Hle.
Qed.

(** ** Pages *)

Section PageFacts.

Lemma firstn_add {A : Type} (a b : nat) (l : list A) :
  firstn (a + b) l = (firstn a l ++ firstn b (skipn a l))%list.
Proof.
  revert l; induction a as [|a IH]; intros [|x l]; simpl;
    try reflexivity.
  - now rewrite firstn_nil.
  - now rewrite IH.
Qed.

(** Between bounds [0 <= s <= e] a slice is what it is on a list. *)
Lemma slice_firstn_skipn {A : Type} (l : list A) (s e : Z) :
  0 <= s <= e ->
  slice l s e = firstn (Z.to_nat (e - s)) (skipn (Z.to_nat s) l).
Proof.
  intros Hse. unfold slice.
  set (len := Z.of_nat (List.length l)).
  destruct (Z.ltb_spec s 0) as [?|_]; [lia|].
  destruct (Z.ltb_spec e 0) as [?|_]; [lia|].
  destruct (Z_le_gt_dec s len) as [Hs|Hs].
  - rewrite (Z.min_l s len) by lia.
    destruct (Z_le_gt_dec e len) as [He|He].
    + now rewrite (Z.min_l e len) by lia.
    + rewrite (Z.min_r e len) by lia.
      rewrite !firstn_all2; auto; rewrite length_skipn; subst len; lia.
  - rewrite (Z.min_r s len), (Z.min_r e len) by lia.
    rewrite !skipn_all2 by (subst len; lia).
    now rewrite !firstn_nil.
Qed.

Lemma slice_beyond {A : Type} (l : list A) (s e : Z) :
  Z.of_nat (List.length l) <= s <= e -> slice l s e = [].
Proof.
  intros Hse. rewrite slice_firstn_skipn by lia.
  rewrite skipn_all2 by lia. apply firstn_nil.
Qed.

Lemma pages_concat {A : Type} (size : Z) (l : list A) (n : nat) :
  0 < size ->
  List.concat (map (fun p => pageSlice size l (Z.of_nat p)) (seq 1 n))
  = firstn (n * Z.to_nat size) l.
Proof.
  intros Hsize. induction n as [|n IH]; [reflexivity|].
  rewrite seq_S, map_app, List.concat_app, IH.
  cbn [map List.concat Nat.add]. rewrite app_nil_r. unfold pageSlice.
  rewrite slice_firstn_skipn by lia.
  set (s := (Z.of_nat (S n) - 1) * size).
  replace (Z.to_nat (s + size - s)) with (Z.to_nat size) by lia.
  replace (Z.to_nat s) with (n * Z.to_nat size)%nat by (subst s; nia).
  rewrite <- firstn_add. f_equal. lia.
Qed.

(** [ceilDiv a b] is the least number of parts of size [b] that hold
    [a]. *)
Lemma ceilDiv_spec (a b : Z) :
  0 < b -> (ceilDiv a b - 1) * b < a <= ceilDiv a b * b.
Proof.
  intros Hb. unfold ceilDiv.
  pose proof (Z.div_mod (- a) b) as Hdm.
  pose proof (Z.mod_pos_bound (- a) b Hb) as Hmod.
  nia.
Qed.

Lemma ceilDiv_zero (b : Z) : 0 < b -> ceilDiv 0 b = 0.
Proof. intros Hb. pose proof (ceilDiv_spec 0 b Hb). nia. Qed.

Lemma ceilDiv_nonneg (a b : Z) : 0 < b -> 0 <= a -> 0 <= ceilDiv a b.
Proof. intros Hb Ha. pose proof (ceilDiv_spec a b Hb). nia. Qed.

End PageFacts.

(** C2. For every index and every filter and sort setting, the pages 1 to
    totalPages of searchArticles, put one after the other, are the filtered
    and sorted set, which holds the articles of the filtered set, each as
    often as the filter kept it. *)
Theorem searchArticles_pages_cover `{Runtime}
    (idx : list Article) (params : ArticleSearchParams) :
  let pages := pagesUpTo (totalPages (searchArticles idx params)) in
  List.concat (map (fun p => articles (searchArticles idx (setPage params p))) pages)
  = filteredSorted idx params /\
  Permutation (filteredSorted idx params) (filtered idx params).
Proof.
  split; [|apply sort_perm].
  unfold pagesUpTo. rewrite map_map.
  set (l := filteredSorted idx params).
  set (n := Z.to_nat (totalPages (searchArticles idx params))).
  transitivity
    (List.concat (map (fun p => pageSlice (articlesPerPage config) l (Z.of_nat p))
               (seq 1 n))).
  { f_equal. apply map_ext_in. intros p Hp. apply in_seq in Hp.
    unfold searchArticles, pageSlice, pageOf; simpl.
    destruct (Z.eqb_spec (Z.of_nat p) 0) as [?|_]; [lia | reflexivity]. }
  rewrite pages_concat by (simpl; lia).
  apply firstn_all2.
  subst n. unfold searchArticles; simpl. fold l.
  pose proof (ceilDiv_spec (Z.of_nat (List.length l)) 10 ltac:(lia)).
  lia.
Qed.

(** C3. For every page number [p >= 1], the result of searchArticles has
    the size of the filtered set as totalCount, the least number of pages of
    articlesPerPage articles that hold totalCount as totalPages (0 for an
    empty set), hasNextPage exactly when [p < totalPages], hasPreviousPage
    exactly when [p > 1], and an empty page, with the same fields, when [p]
    is beyond totalPages. *)
Theorem searchArticles_page_fields `{Runtime}
    (idx : list Article) (params : ArticleSearchParams) (p : Z) :
  1 <= p ->
  let r := searchArticles idx (setPage params p) in
  let size := articlesPerPage config in
  totalCount r = Z.of_nat (List.length (filtered idx params)) /\
  (totalPages r - 1) * size < totalCount r <= totalPages r * size /\
  (totalCount r = 0 -> totalPages r = 0) /\
  (hasNextPage r = true <-> p < totalPages r) /\
  (hasPreviousPage r = true <-> 1 < p) /\
  currentPage r = p /\
  (totalPages r < p -> articles r = []).
Proof.
  intros Hp r size.
  assert (Hpage : pageOf (setPage params p) = p).
  { unfold pageOf; simpl. destruct (Z.eqb_spec p 0); [lia | reflexivity]. }
  unfold r, searchArticles. rewrite Hpage. simpl.
  change (filteredSorted idx (setPage params p))
    with (filteredSorted idx params).
  set (l := filteredSorted idx params).
  pose proof (ceilDiv_spec (Z.of_nat (List.length l)) 10 ltac:(lia)) as Hceil.
  repeat split.
  - f_equal. apply Permutation_length. apply sort_perm.
  - subst size; simpl; lia.
  - subst size; simpl; lia.
  - intros H0. rewrite H0. now apply ceilDiv_zero.
  - apply Z.ltb_lt.
  - apply Z.ltb_lt.
  - apply Z.ltb_lt.
  - apply Z.ltb_lt.
  - intros Hbeyond. apply slice_beyond. lia.
Qed.

(** With the three articles of the example source, page 2 is empty and has
    no next page. *)
Lemma searchArticles_page_fields_witness :
  let params := {| query := None; tag := None; page := None;
                   sortBy := None; sortOrder := None |} in
  let r := @searchArticles exampleRuntime
             (@loadArticles exampleRuntime exampleSource) (setPage params 2) in
  1 <= 2 /\ totalCount r = 3 /\ totalPages r = 1 /\ articles r = [] /\
  (hasNextPage r = true <-> 2 < totalPages r).
Proof.
  intros params r.
  pose proof (@searchArticles_page_fields exampleRuntime
                (@loadArticles exampleRuntime exampleSource) params 2
                ltac:(lia)) as (_ & _ & _ & Hnext & _ & _ & Hempty).
  split; [lia|]. split; [reflexivity|]. split; [reflexivity|].
  split; [apply Hempty; vm_compute; reflexivity | exact Hnext].
Defined.

(** ** The query *)

Section QueryFacts.

Lemma prefix_app (q s : string) :
  String.prefix q s = true <-> exists post, s = q ++ post.
Proof.
  revert s; induction q as [|c q IH]; intros s.
  - split; [intros _; now exists s | now destruct s].
  - destruct s as [|d s]; simpl.
    + split; [discriminate | intros [post Hp]; discriminate].
    + destruct (ascii_dec c d) as [->|Hcd].
      * rewrite IH. split; intros [post Hp]; exists post.
        -- now rewrite Hp.
        -- now injection Hp.
      * split; [discriminate|].
        intros [post Hp]. injection Hp as Hd _. congruence.
Qed.

Lemma includes_app (s q : string) :
  includes s q = true <-> exists pre post, s = pre ++ q ++ post.
Proof.
  induction s as [|c s IH]; cbn [includes].
  - rewrite orb_false_r, prefix_app. split.
    + intros [post Hp]. now exists "", post.
    + intros (pre & post & Hp). destruct pre; [now exists post|].
      discriminate.
  - rewrite orb_true_iff, prefix_app, IH. split.
    + intros [[post Hp] | (pre & post & Hp)].
      * now exists "", post.
      * exists (String c pre), post. simpl. now rewrite Hp.
    + intros (pre & post & Hp). destruct pre as [|d pre].
      * left. now exists post.
      * right. simpl in Hp. injection Hp as _ Hp. now exists pre, post.
Qed.

Lemma toLowerCase_app (a b : string) :
  toLowerCase (a ++ b) = toLowerCase a ++ toLowerCase b.
Proof.
  induction a as [|c a IH]; simpl; [reflexivity | now rewrite IH].
Qed.

Lemma toLowerCase_split (s a b : string) :
  toLowerCase s = a ++ b ->
  exists a' b', s = a' ++ b' /\ toLowerCase a' = a /\ toLowerCase b' = b.
Proof.
  revert s; induction a as [|c a IH]; intros s Hs; simpl in Hs.
  - now exists "", s.
  - destruct s as [|d s]; [discriminate|].
    simpl in Hs. injection Hs as Hd Hs.
    destruct (IH s Hs) as (a' & b' & -> & Ha & Hb).
    exists (String d a'), b'. simpl. now rewrite Hd, Ha, Hb.
Qed.

(** The test of the filter on one field. *)
Lemma includes_ignoring_case (s q : string) :
  includes (toLowerCase s) (toLowerCase q) = true
  <-> occursIgnoringCase q s.
Proof.
  rewrite includes_app. unfold occursIgnoringCase. split.
  - intros (pre & post & Hs).
    destruct (toLowerCase_split _ _ _ Hs) as (pre' & rest & -> & Hpre & Hr).
    destruct (toLowerCase_split _ _ _ Hr) as (mid & post' & -> & Hm & Hp).
    now exists pre', mid, post'.
  - intros (pre & mid & post & -> & Hm).
    exists (toLowerCase pre), (toLowerCase post).
    now rewrite !toLowerCase_app, Hm.
Qed.

Lemma matchesQuery_spec (q : string) (a : ArticleListItem) :
  matchesQuery q a = true <->
  occursIgnoringCase q (title (itemMetadata a)) \/
  occursIgnoringCase q (summary (itemMetadata a)) \/
  (exists t, In t (tags (itemMetadata a)) /\ occursIgnoringCase q t) \/
  occursIgnoringCase q (itemExcerpt a).
Proof.
  unfold matchesQuery.
  rewrite !orb_true_iff, existsb_exists, !includes_ignoring_case.
  setoid_rewrite includes_ignoring_case. tauto.
Qed.

Lemma truthy_nonempty (q : string) : q <> "" -> truthy (Some q) = true.
Proof.
  intros Hq. simpl. now destruct (String.eqb_spec q "").
Qed.

End QueryFacts.

(** C4, as the code has it. A query that is absent or empty filters
    nothing. Every other query filters, a query of white space like any
    other: an article is in the filtered set exactly when it is there
    without the query and the query occurs, case ignored, in its title, its
    summary, one of its tags or its excerpt. *)
Theorem searchArticles_query `{Runtime}
    (idx : list Article) (params : ArticleSearchParams) :
  searchArticles idx (setQuery params (Some ""))
  = searchArticles idx (setQuery params None) /\
  forall q, q <> "" ->
    forall a,
      In a (filtered idx (setQuery params (Some q))) <->
      In a (filtered idx (setQuery params None)) /\
      (occursIgnoringCase q (title (itemMetadata a)) \/
       occursIgnoringCase q (summary (itemMetadata a)) \/
       (exists t, In t (tags (itemMetadata a)) /\ occursIgnoringCase q t) \/
       occursIgnoringCase q (itemExcerpt a)).
Proof.
  split; [reflexivity|].
  intros q Hq a. unfold filtered, filterByQuery, filterByTag.
  cbn [query tag setQuery]. rewrite (truthy_nonempty q Hq).
  cbn [truthy textOf]. rewrite <- matchesQuery_spec.
  destruct (truthy (tag params)).
  - rewrite !filter_In. tauto.
  - rewrite filter_In. tauto.
Qed.

(** The query ["DOCK"] on the example source keeps the article that has
    ["Docker"] in its title. *)
Lemma searchArticles_query_witness :
  let params := {| query := None; tag := None; page := None;
                   sortBy := None; sortOrder := None |} in
  let idx := @loadArticles exampleRuntime exampleSource in
  "DOCK" <> "" /\
  map itemFilename (filtered idx (setQuery params (Some "DOCK")))
  = ["docker-optimization-production.md"] /\
  forall a, In a (filtered idx (setQuery params (Some "DOCK"))) ->
            In a (filtered idx (setQuery params None)).
Proof.
  intros params idx.
  assert (Hq : "DOCK" <> "") by discriminate.
  split; [exact Hq|]. split; [reflexivity|].
  intros a Ha.
  exact (proj1 (proj1 (proj2 (@searchArticles_query exampleRuntime idx params)
                         "DOCK" Hq a) Ha)).
Defined.

(** C4 as stated fails for a query of white space: on the example source
    the query of two spaces is applied as a filter and leaves no article,
    where the search without a query finds three. *)
Lemma searchArticles_blank_query_filters :
  let params := {| query := None; tag := None; page := None;
                   sortBy := None; sortOrder := None |} in
  let idx := @loadArticles exampleRuntime exampleSource in
  trim "  " = "" /\
  totalCount (@searchArticles exampleRuntime idx (setQuery params (Some "  ")))
  = 0 /\
  totalCount (@searchArticles exampleRuntime idx (setQuery params None)) = 3 /\
  @searchArticles exampleRuntime idx (setQuery params (Some "  "))
  <> @searchArticles exampleRuntime idx (setQuery params None).
Proof.
  intros params idx. split; [reflexivity|]. split; [reflexivity|].
  split; [reflexivity|].
  intros Heq. apply (f_equal totalCount) in Heq. vm_compute in Heq.
  discriminate.
Qed.

(** ** Tags *)

Section TagFacts.

Lemma existsb_eqb_In (t : string) (l : list string) :
  existsb (String.eqb t) l = true <-> In t l.
Proof.
  rewrite existsb_exists. split.
  - intros (x & Hx & Heq). apply String.eqb_eq in Heq. now subst.
  - intros Ht. exists t. split; [assumption | apply String.eqb_refl].
Qed.

Lemma firstSeen_ext (s1 s2 l : list string) :
  (forall x, In x s1 <-> In x s2) -> firstSeen s1 l = firstSeen s2 l.
Proof.
  revert s1 s2; induction l as [|t l IH]; intros s1 s2 Heq; simpl;
    [reflexivity|].
  assert (Hmem : existsb (String.eqb t) s1 = existsb (String.eqb t) s2).
  { apply eq_true_iff_eq. rewrite !existsb_eqb_In. apply Heq. }
  rewrite Hmem. destruct (existsb (String.eqb t) s2).
  - now apply IH.
  - f_equal. apply IH. intros x; simpl. rewrite Heq. tauto.
Qed.

Lemma firstSeen_fresh (seen l : list string) (x : string) :
  In x (firstSeen seen l) -> ~ In x seen.
Proof.
  revert seen; induction l as [|t l IH]; intros seen; simpl; [tauto|].
  destruct (existsb (String.eqb t) seen) eqn:Hmem.
  - apply IH.
  - intros [<- | Hx].
    + rewrite <- existsb_eqb_In. congruence.
    + intros Hs. apply (IH _ Hx). now right.
Qed.

Lemma firstSeen_NoDup (seen l : list string) : NoDup (firstSeen seen l).
Proof.
  revert seen; induction l as [|t l IH]; intros seen; simpl;
    [constructor|].
  destruct (existsb (String.eqb t) seen); [apply IH|].
  constructor; [|apply IH].
  intros Hin. apply firstSeen_fresh in Hin. apply Hin. now left.
Qed.

Lemma firstSeen_In (seen l : list string) (x : string) :
  In x (firstSeen seen l) <-> In x l /\ ~ In x seen.
Proof.
  revert seen; induction l as [|t l IH]; intros seen; simpl; [tauto|].
  destruct (existsb (String.eqb t) seen) eqn:Hmem.
  - rewrite IH. apply existsb_eqb_In in Hmem.
    split; [tauto|]. intros [[<- | Hx] Hs]; tauto.
  - assert (Ht : ~ In t seen).
    { rewrite <- existsb_eqb_In. congruence. }
    simpl. rewrite IH. simpl.
    destruct (string_dec t x) as [<-|Hne]; [tauto|]. tauto.
Qed.

Lemma occurrences_cons (t u : string) (l : list string) :
  occurrences t (u :: l)
  = (if String.eqb u t then 1 else 0) + occurrences t l.
Proof.
  unfold occurrences. simpl.
  destruct (string_dec u t) as [->|Hne].
  - rewrite String.eqb_refl. lia.
  - apply String.eqb_neq in Hne. rewrite Hne. lia.
Qed.

Lemma mapGet_absent (m : Map Z) (t : string) :
  ~ In t (map fst m) -> mapGet m t = None.
Proof.
  induction m as [|[k v] m IH]; simpl; intros Ht; [reflexivity|].
  destruct (String.eqb_spec k t) as [->|_]; [tauto|].
  apply IH. tauto.
Qed.

Lemma mapSet_absent (m : Map Z) (t : string) (v : Z) :
  ~ In t (map fst m) -> mapSet m t v = (m ++ [(t, v)])%list.
Proof.
  induction m as [|[k w] m IH]; simpl; intros Ht; [reflexivity|].
  destruct (String.eqb_spec k t) as [->|_]; [tauto|].
  rewrite IH; tauto.
Qed.

(** A tag met for the first time gets an entry at the end, with count 1. *)
Lemma countTag_new (m : Map Z) (t : string) :
  ~ In t (map fst m) -> countTag m t = (m ++ [(t, 1)])%list.
Proof.
  intros Ht. unfold countTag, getOrZero.
  rewrite mapGet_absent by assumption. now apply mapSet_absent.
Qed.

Lemma bump_absent (m : Map Z) (t : string) :
  ~ In t (map fst m) -> map (bump t) m = m.
Proof.
  induction m as [|[k v] m IH]; simpl; intros Ht; [reflexivity|].
  unfold bump at 1; simpl.
  destruct (String.eqb_spec k t) as [->|_]; [tauto|].
  rewrite IH; tauto.
Qed.

(** A tag met again has its count raised where its entry stands. *)
Lemma countTag_again (m : Map Z) (t : string) :
  NoDup (map fst m) -> In t (map fst m) -> countTag m t = map (bump t) m.
Proof.
  unfold countTag, getOrZero.
  induction m as [|[k v] m IH]; simpl; intros Hnd Ht; [contradiction|].
  inversion Hnd as [|? ? Hk Hnd']; subst.
  unfold bump at 1; simpl.
  destruct (String.eqb_spec k t) as [->|Hne].
  - now rewrite bump_absent.
  - f_equal. apply IH; [assumption|]. destruct Ht; [contradiction|assumption].
Qed.

Lemma map_fst_bump (m : Map Z) (t : string) :
  map fst (map (bump t) m) = map fst m.
Proof.
  rewrite map_map. apply map_ext. intros [k v]. unfold bump; simpl.
  now destruct (String.eqb k t).
Qed.

(** The inner loop, from any map with distinct keys: the entries that
    were there stay in place with their counts raised by the occurrences
    met, and the new tags follow in the order they were first met. *)
Lemma countTag_fold (l : list string) (m : Map Z) :
  NoDup (map fst m) ->
  fold_left countTag l m
  = (map (fun e => (fst e, snd e + occurrences (fst e) l)) m
     ++ map (fun t => (t, occurrences t l)) (firstSeen (map fst m) l))%list.
Proof.
  revert m; induction l as [|t l IH]; intros m Hnd.
  - simpl. rewrite app_nil_r. rewrite <- (map_id m) at 1.
    apply map_ext. intros [k v]. unfold occurrences; simpl. f_equal. lia.
  - cbn [fold_left firstSeen].
    destruct (existsb (String.eqb t) (map fst m)) eqn:Hmem.
    + apply existsb_eqb_In in Hmem.
      rewrite countTag_again by assumption.
      rewrite IH by (now rewrite map_fst_bump).
      rewrite map_fst_bump, map_map. f_equal.
      * apply map_ext. intros [k v]. rewrite occurrences_cons.
        unfold bump; cbn [fst snd]. rewrite (String.eqb_sym t k).
        destruct (String.eqb k t); cbn [fst snd]; apply f_equal; lia.
      * apply map_ext_in. intros x Hx. rewrite occurrences_cons.
        apply firstSeen_fresh in Hx.
        destruct (String.eqb_spec t x) as [->|_]; [contradiction|].
        reflexivity.
    + assert (Ht : ~ In t (map fst m)).
      { rewrite <- existsb_eqb_In. congruence. }
      rewrite countTag_new by assumption.
      rewrite IH.
      2:{ rewrite map_app. cbn [map fst].
          apply (Permutation_NoDup (Permutation_cons_append _ _)).
          now constructor. }
      rewrite !map_app. cbn [map fst snd]. rewrite <- app_assoc.
      f_equal.
      * apply map_ext_in. intros [k v] Hk. rewrite occurrences_cons.
        cbn [fst snd].
        destruct (String.eqb_spec t k) as [->|_]; [|reflexivity].
        exfalso. apply Ht. now apply (in_map fst) in Hk.
      * cbn [app]. f_equal.
        -- now rewrite occurrences_cons, String.eqb_refl.
        -- rewrite (firstSeen_ext (map fst m ++ [t]) (t :: map fst m)).
           2:{ intros x. rewrite in_app_iff. simpl. tauto. }
           apply map_ext_in. intros x Hx. rewrite occurrences_cons.
           apply firstSeen_fresh in Hx.
           destruct (String.eqb_spec t x) as [->|_]; [|reflexivity].
           exfalso. apply Hx. now left.
Qed.

Lemma countTags_flat (idx : list Article) (m : Map Z) :
  fold_left (fun m a => fold_left countTag (tags (metadata a)) m) idx m
  = fold_left countTag (allTagsOf idx) m.
Proof.
  revert m; induction idx as [|a idx IH]; intros m; simpl;
    [reflexivity|].
  now rewrite fold_left_app, IH.
Qed.

(** The map that getAllTags builds. *)
Lemma countTags_spec (idx : list Article) :
  countTags idx
  = map (fun t => (t, occurrences t (allTagsOf idx)))
      (firstSeen [] (allTagsOf idx)).
Proof.
  unfold countTags. rewrite countTags_flat, countTag_fold by constructor.
  reflexivity.
Qed.

Lemma mostUsedFirst_key (x y : TagCount) :
  True -> True -> (cmpValue (mostUsedFirst x y) <= 0 <-> count y <= count x).
Proof. intros _ _. unfold mostUsedFirst; simpl. lia. Qed.

End TagFacts.

(** C5, as the code has it. getAllTags returns one entry for each tag of
    the index; the count of a tag is the number of its occurrences in the
    tag lists of the articles, so that a tag listed twice by one article
    counts twice for it. The entries come by decreasing count, and those of
    one count in the order in which their tags are first met in the
    index. *)
Theorem getAllTags_counts (idx : list Article) :
  let all := allTagsOf idx in
  let result := getAllTags idx in
  Permutation (map tagName result) (firstSeen [] all) /\
  NoDup (map tagName result) /\
  (forall c, In c result -> count c = occurrences (tagName c) all) /\
  StronglySorted (fun a b => count b <= count a) result /\
  (forall k,
      map tagName (filter (fun c => count c =? k) result)
      = filter (fun t => occurrences t all =? k) (firstSeen [] all)).
Proof.
  intros all result.
  set (base := map (fun t => {| tagName := t; count := occurrences t all |})
                 (firstSeen [] all)).
  assert (Hres : result = sort mostUsedFirst base).
  { unfold result, getAllTags. rewrite countTags_spec, map_map.
    reflexivity. }
  assert (Hnames : map tagName base = firstSeen [] all).
  { unfold base. rewrite map_map. apply map_id. }
  assert (Hperm : Permutation result base).
  { rewrite Hres. apply sort_perm. }
  assert (Htrue : Forall (fun _ : TagCount => True) base).
  { apply Forall_forall. trivial. }
  split; [|split; [|split; [|split]]].
  - rewrite <- Hnames. now apply Permutation_map.
  - apply (Permutation_NoDup (l := firstSeen [] all)).
    + rewrite <- Hnames. symmetry. now apply Permutation_map.
    + apply firstSeen_NoDup.
  - intros c Hc. apply (Permutation_in _ Hperm) in Hc.
    unfold base in Hc. apply in_map_iff in Hc.
    destruct Hc as (t & <- & _). reflexivity.
  - rewrite Hres.
    apply (sort_sorted mostUsedFirst count (fun _ => True) mostUsedFirst_key).
    exact Htrue.
  - intros k. rewrite Hres.
    rewrite (sort_stable mostUsedFirst count (fun _ => True)
               mostUsedFirst_key k base Htrue).
    unfold base. clear.
    induction (firstSeen [] all) as [|t l IH]; simpl; [reflexivity|].
    destruct (occurrences t all =? k); simpl; now rewrite IH.
Qed.

(** C5 as stated fails on the example source: the tag ["web"] is carried
    by two articles, one of which lists it twice, and its count is 3. *)
Lemma getAllTags_counts_repeated_tag :
  let idx := @loadArticles exampleRuntime exampleSource in
  map (fun a => tags (metadata a)) idx
  = [ ["perf"]; ["web"; "web"; "cgi"]; ["web"; "perf"] ] /\
  List.length (carrying "web" idx) = 2%nat /\
  map (fun c => (tagName c, count c)) (getAllTags idx)
  = [ ("web", 3); ("perf", 2); ("cgi", 1) ].
Proof.
  repeat split.
Qed.

(** ** Overlapping calls *)

Section AsyncFacts.
Context `{Runtime} (source : Source) (files : list string).

Lemma setNth_length {A : Type} (l : list A) (i : nat) (x : A) :
  List.length (setNth l i x) = List.length l.
Proof.
  revert i; induction l as [|y l IH]; intros [|i]; simpl; auto.
Qed.

Lemma setNth_Forall {A : Type} (P : A -> Prop) (l : list A) (i : nat)
    (x : A) :
  Forall P l -> P x -> Forall P (setNth l i x).
Proof.
  intros Hl Hx. revert i; induction Hl as [|y l Hy Hl IH]; intros [|i];
    simpl; auto.
Qed.

Lemma setNth_sum {A : Type} (g : A -> nat) (l : list A) (i : nat)
    (x old : A) :
  nth_error l i = Some old ->
  (list_sum (map g (setNth l i x)) + g old
   = list_sum (map g l) + g x)%nat.
Proof.
  revert i; induction l as [|y l IH]; intros [|i]; simpl; intros Hi;
    try discriminate.
  - injection Hi as ->. lia.
  - specialize (IH i Hi). lia.
Qed.

Lemma setNth_done (l : list Load) (i : nat) (x old : Load) :
  nth_error l i = Some old -> isDone old = false -> isDone x = false ->
  existsb isDone (setNth l i x) = existsb isDone l.
Proof.
  revert i; induction l as [|y l IH]; intros [|i]; simpl;
    intros Hi Hold Hx; try discriminate.
  - injection Hi as ->. now rewrite Hold, Hx.
  - now rewrite (IH i Hi Hold Hx).
Qed.

Lemma loadEach_app (l1 l2 : list string) :
  loadEach source (l1 ++ l2)
  = (loadEach source l1 ++ loadEach source l2)%list.
Proof.
  induction l1 as [|f l1 IH]; simpl; [reflexivity|].
  destruct (loadSingleArticle source f); simpl; now rewrite IH.
Qed.

(** The loop goes on from a point where [done] has been processed. *)
Lemma proceed_invariant (l : nat) (old : Load) (done rest : list string)
    (st : State) :
  Invariant source files st ->
  nth_error (loads st) l = Some old ->
  isDone old = false ->
  files = (done ++ rest)%list ->
  (forall f, issued files f old = count_occ string_dec done f) ->
  Invariant source files (proceed l rest (loadEach source done) st).
Proof.
  intros [Hloads Hfetch Hindex] Hold Hnd Hfiles Hissued.
  destruct rest as [|g rest]; constructor; cbn [proceed loads index fetches].
  - apply setNth_Forall; simpl; auto.
  - intros f. unfold fetchCount; cbn [fetches].
    pose proof (setNth_sum (issued files f) (loads st) l LoadDone old Hold)
      as Hsum.
    specialize (Hfetch f). unfold fetchCount in Hfetch.
    rewrite Hissued in Hsum. cbn [issued] in Hsum.
    assert (Hcount : count_occ string_dec files f
                     = count_occ string_dec done f).
    { rewrite Hfiles, app_nil_r. reflexivity. }
    lia.
  - intros _. rewrite Hfiles, app_nil_r. reflexivity.
  - apply setNth_Forall; [assumption|]. now exists done.
  - intros f. unfold fetchCount; cbn [fetches count_occ].
    pose proof (setNth_sum (issued files f) (loads st) l
                  (AwaitArticle g rest (loadEach source done)) old Hold)
      as Hsum.
    specialize (Hfetch f). unfold fetchCount in Hfetch.
    rewrite Hissued in Hsum. cbn [issued] in Hsum.
    assert (Hcount : count_occ string_dec files f
                     = (count_occ string_dec done f
                        + count_occ string_dec (g :: rest) f)%nat).
    { rewrite Hfiles. apply count_occ_app. }
    cbn [count_occ] in Hcount.
    destruct (string_dec g f); lia.
  - rewrite (setNth_done _ _ _ old) by auto. exact Hindex.
Qed.

Lemma step_invariant (e : Event) (st st' : State) :
  Invariant source files st -> step source files e st = Some st' ->
  Invariant source files st'.
Proof.
  intros Hinv Hstep. destruct e as [|l|c]; cbn [step] in Hstep.
  - destruct Hinv as [Hloads Hfetch Hindex].
    destruct (index st) as [|a idx] eqn:Hidx; injection Hstep as <-;
      constructor; cbn [loads index fetches]; auto.
    + apply Forall_app. split; [assumption | repeat constructor].
    + intros f. unfold fetchCount; cbn [fetches].
      rewrite map_app, list_sum_app. cbn. specialize (Hfetch f).
      unfold fetchCount in Hfetch. lia.
    + rewrite existsb_app. cbn. rewrite orb_false_r. exact Hindex.
  - destruct (nth_error (loads st) l) as [[|g rest loaded|]|] eqn:Hl;
      try discriminate.
    + injection Hstep as <-.
      apply (proceed_invariant l AwaitFiles [] files st); auto.
    + pose proof (inv_loads _ _ _ Hinv) as Hloads.
      rewrite Forall_forall in Hloads.
      destruct (Hloads _ (nth_error_In _ _ Hl)) as (done & Hfiles & ->).
      assert (Hstep' : st' = proceed l rest
                               (loadEach source (done ++ [g])) st).
      { rewrite loadEach_app. cbn [loadEach].
        destruct (loadSingleArticle source g); injection Hstep as <-;
          [reflexivity | now rewrite app_nil_r]. }
      rewrite Hstep'.
      apply (proceed_invariant l _ (done ++ [g])%list rest st Hinv Hl);
        auto.
      * now rewrite <- app_assoc.
      * intros f. cbn [issued]. rewrite Hfiles, !count_occ_app.
        cbn [count_occ]. destruct (string_dec g f); lia.
  - destruct (nth_error (callers st) c) as [[l|]|]; try discriminate.
    destruct (nth_error (loads st) l) as [[| |]|]; try discriminate.
    injection Hstep as <-. destruct Hinv. now constructor.
Qed.

Lemma run_invariant (events : list Event) (st st' : State) :
  Invariant source files st -> run source files events st = Some st' ->
  Invariant source files st'.
Proof.
  revert st; induction events as [|e events IH]; intros st Hinv Hrun;
    cbn [run] in Hrun.
  - now injection Hrun as <-.
  - destruct (step source files e st) as [st1|] eqn:Hstep;
      [|discriminate].
    eapply IH; [eapply step_invariant|]; eassumption.
Qed.

Lemma created_invariant : Invariant source files created.
Proof.
  constructor; simpl.
  - repeat constructor.
  - reflexivity.
  - discriminate.
Qed.

Lemma run_app (e1 e2 : list Event) (st : State) :
  run source files (e1 ++ e2) st
  = match run source files e1 st with
    | Some st1 => run source files e2 st1
    | None => None
    end.
Proof.
  revert st; induction e1 as [|e e1 IH]; intros st; cbn [run app];
    [reflexivity|].
  destruct (step source files e st); [apply IH | reflexivity].
Qed.

(** Resuming and returning start no call of loadArticles. *)
Lemma run_noCalls_loads (events : list Event) (st st' : State) :
  noCalls events = true -> run source files events st = Some st' ->
  List.length (loads st') = List.length (loads st).
Proof.
  revert st; induction events as [|e events IH]; intros st Hnc Hrun;
    cbn [run] in Hrun.
  - now injection Hrun as <-.
  - cbn [noCalls forallb] in Hnc. apply andb_prop in Hnc as [He Hnc].
    destruct (step source files e st) as [st1|] eqn:Hstep;
      [|discriminate].
    rewrite (IH st1 Hnc Hrun).
    destruct e as [|l|c]; cbn [step] in Hstep; [discriminate| |].
    + destruct (nth_error (loads st) l) as [[|g rest loaded|]|];
        try discriminate.
      * injection Hstep as <-. unfold proceed.
        destruct files; cbn [loads]; apply setNth_length.
      * destruct (loadSingleArticle source g); injection Hstep as <-;
          unfold proceed; destruct rest; cbn [loads];
          apply setNth_length.
    + destruct (nth_error (callers st) c) as [[l|]|]; try discriminate.
      destruct (nth_error (loads st) l) as [[| |]|]; try discriminate.
      now injection Hstep as <-.
Qed.

(** Each call of getArticles that finds the index empty starts a call of
    loadArticles of its own, and leaves the index as it is. *)
Lemma run_calls_on_empty (n : nat) (st st' : State) :
  index st = [] -> run source files (repeat Call n) st = Some st' ->
  index st' = [] /\
  List.length (loads st') = (List.length (loads st) + n)%nat.
Proof.
  revert st; induction n as [|n IH]; intros st Hidx Hrun;
    cbn [repeat run] in Hrun.
  - injection Hrun as <-. split; [assumption | lia].
  - cbn [step] in Hrun. rewrite Hidx in Hrun.
    apply IH in Hrun; [|reflexivity].
    cbn [loads] in Hrun. rewrite length_app in Hrun. cbn in Hrun.
    destruct Hrun. split; [assumption | lia].
Qed.

Lemma settled_sum (f : string) (l : list Load) :
  forallb isDone l = true ->
  list_sum (map (issued files f) l)
  = (List.length l * count_occ string_dec files f)%nat.
Proof.
  induction l as [|x l IH]; intros Hl; [reflexivity|].
  cbn [forallb] in Hl. apply andb_prop in Hl as [Hx Hl].
  destruct x; try discriminate.
  change (list_sum (map (issued files f) (LoadDone :: l)))
    with (count_occ string_dec files f
          + list_sum (map (issued files f) l))%nat.
  rewrite IH by assumption. reflexivity.
Qed.

Lemma settled_some_done (l : list Load) :
  l <> [] -> forallb isDone l = true -> existsb isDone l = true.
Proof.
  destruct l as [|x l]; [congruence|]. simpl. intros _ Hl.
  apply andb_prop in Hl as [-> _]. reflexivity.
Qed.
End AsyncFacts.

(** C9, as the code has it. There is no guard around the load: each caller
    of getArticles that finds the index empty starts a load of its own. When
    N callers invoke getArticles on a new service while its index is empty,
    then, whatever the order in which the loads go on, once they are all
    through every file has been fetched once for each caller and once for
    the load that the constructor started, N + 1 times over, and the index
    is the one that a single load yields. *)
Theorem getArticles_loads_once_per_caller `{Runtime}
    (source : Source) (files : list string) (N : nat)
    (before after : list Event) (st1 st2 : State) :
  noCalls before = true ->
  run source files before created = Some st1 ->
  index st1 = [] ->
  noCalls after = true ->
  run source files (repeat Call N ++ after) st1 = Some st2 ->
  settled st2 = true ->
  List.length (loads st2) = (N + 1)%nat /\
  (forall file,
      fetchCount st2 file
      = ((N + 1) * count_occ string_dec files file)%nat) /\
  index st2 = loadArticlesOf files source.
Proof.
  intros Hnc1 Hrun1 Hempty Hnc2 Hrun2 Hsettled.
  rewrite run_app in Hrun2.
  destruct (run source files (repeat Call N) st1) as [stc|] eqn:Hcalls;
    [|discriminate].
  pose proof (run_noCalls_loads source files _ _ _ Hnc1 Hrun1) as Hlen1.
  destruct (run_calls_on_empty source files _ _ _ Hempty Hcalls)
    as [_ Hlenc].
  pose proof (run_noCalls_loads source files _ _ _ Hnc2 Hrun2) as Hlen2.
  cbn in Hlen1.
  assert (Hlen : List.length (loads st2) = (N + 1)%nat) by lia.
  assert (Hinv : Invariant source files st2).
  { eapply run_invariant; [|exact Hrun2].
    eapply run_invariant; [|exact Hcalls].
    eapply run_invariant; [|exact Hrun1].
    apply created_invariant. }
  destruct Hinv as [_ Hfetch Hindex].
  split; [exact Hlen|]. split.
  - intros file. rewrite Hfetch, settled_sum by exact Hsettled.
    now rewrite Hlen.
  - apply Hindex. apply settled_some_done; [|exact Hsettled].
    intros Hnil. rewrite Hnil in Hlen. simpl in Hlen. lia.
Qed.

(** Two callers on a new service, with the loads taken in turn. *)
Lemma getArticles_loads_once_per_caller_witness :
  exists st,
    noCalls [] = true /\ noCalls inTurn = true /\
    index created = [] /\
    @run exampleRuntime exampleSource getArticleFiles
      (repeat Call 2 ++ inTurn)%list created = Some st /\
    settled st = true /\
    fetchCount st "apache-execcgi-fpm.md" = 3%nat /\
    index st = @loadArticles exampleRuntime exampleSource.
Proof.
  pose (st := match @run exampleRuntime exampleSource getArticleFiles
                      (repeat Call 2 ++ inTurn)%list created with
              | Some st' => st'
              | None => created
              end).
  assert (Hrun : @run exampleRuntime exampleSource getArticleFiles
                   (repeat Call 2 ++ inTurn)%list created = Some st)
    by (vm_compute; reflexivity).
  assert (Hset : settled st = true) by reflexivity.
  destruct (@getArticles_loads_once_per_caller exampleRuntime exampleSource
              getArticleFiles 2 [] inTurn created st
              eq_refl eq_refl eq_refl eq_refl Hrun Hset)
    as (_ & Hcount & Hindex).
  exists st.
  split; [reflexivity|]. split; [reflexivity|]. split; [reflexivity|].
  split; [exact Hrun|]. split; [exact Hset|].
  split; [rewrite Hcount; reflexivity | exact Hindex].
Defined.

(** C9 as stated fails: two callers that invoke getArticles on a new
    service, whose index is empty, make three loads with the one of the
    constructor, and every file is fetched three times, not once. *)
Lemma getArticles_is_not_single_flight :
  exists st,
    @run exampleRuntime exampleSource getArticleFiles twoCallers created
    = Some st /\
    index created = [] /\
    settled st = true /\
    callers st = [ Returned (@loadArticles exampleRuntime exampleSource);
                   Returned (@loadArticles exampleRuntime exampleSource) ] /\
    map (fetchCount st) getArticleFiles = [3; 3; 3; 3; 3]%nat /\
    fetchCount st "apache-execcgi-fpm.md" <> 1%nat.
Proof.
  eexists. split; [vm_compute; reflexivity|].
  repeat split. discriminate.
Qed.

(** * Further properties of the service and of its callers *)

Import Callers Notions.

(** ** Previous and next article *)

Section NavigationFacts.

Lemma findIndexFrom_none {A : Type} (p : A -> bool) (i : Z) (l : list A) :
  Forall (fun b => p b = false) l -> findIndexFrom p i l = -1.
Proof.
  intros Hl. revert i; induction Hl as [|x l Hx Hl IH]; intros i; simpl;
    [reflexivity|].
  rewrite Hx. apply IH.
Qed.

Lemma findIndexFrom_found {A : Type} (p : A -> bool) (i : Z)
    (pre post : list A) (a : A) :
  Forall (fun b => p b = false) pre -> p a = true ->
  findIndexFrom p i (pre ++ a :: post)%list = i + Z.of_nat (List.length pre).
Proof.
  intros Hpre Ha. revert i; induction Hpre as [|x l Hx Hl IH]; intros i.
  - simpl. rewrite Ha. lia.
  - cbn [app findIndexFrom List.length]. rewrite Hx, IH. lia.
Qed.

Lemma item_middle {A : Type} (pre post : list A) (a : A) :
  item (pre ++ a :: post)%list (Z.of_nat (List.length pre)) = Some a.
Proof.
  unfold item. destruct (Z.ltb_spec (Z.of_nat (List.length pre)) 0); [lia|].
  rewrite Nat2Z.id, nth_error_app2 by lia.
  now rewrite Nat.sub_diag.
Qed.

Lemma lastOf_snoc {A : Type} (l : list A) (b : A) :
  lastOf (l ++ [b])%list = Some b.
Proof. unfold lastOf. now rewrite rev_app_distr. Qed.

Lemma lastOf_cases {A : Type} (l : list A) :
  (l = [] /\ lastOf l = None) \/
  (exists l' b, l = (l' ++ [b])%list /\ lastOf l = Some b).
Proof.
  destruct l as [|x l]; [left; now split|]. right.
  destruct (@exists_last _ (x :: l)) as (l' & b & Hl); [discriminate|].
  exists l', b. split; [exact Hl|].
  rewrite Hl. apply lastOf_snoc.
Qed.

Lemma slug_differs (s : string) (l : list Article) :
  Forall (fun b => slugOf b <> s) l ->
  Forall (fun b => String.eqb (slug (metadata b)) s = false) l.
Proof.
  apply Forall_impl. intros b Hb. now apply String.eqb_neq.
Qed.

Lemma navigation_absent (idx : list Article) (s : string) :
  Forall (fun b => slugOf b <> s) idx ->
  getArticleNavigation idx s = {| previous := None; next := None |}.
Proof.
  intros Hidx. unfold getArticleNavigation, findIndex.
  now rewrite findIndexFrom_none by now apply slug_differs.
Qed.

(** The navigation from the first article that has the slug. *)
Lemma navigation_at (pre post : list Article) (a : Article) :
  Forall (fun b => slugOf b <> slugOf a) pre ->
  getArticleNavigation (pre ++ a :: post)%list (slugOf a)
  = {| previous := option_map linkTo (lastOf pre);
       next := option_map linkTo (hd_error post) |}.
Proof.
  intros Hpre. unfold getArticleNavigation, findIndex.
  rewrite findIndexFrom_found
    by (try apply slug_differs; auto; apply String.eqb_refl).
  rewrite Z.add_0_l.
  destruct (Z.eqb_spec (Z.of_nat (List.length pre)) (-1)) as [?|_]; [lia|].
  f_equal.
  - destruct (lastOf_cases pre) as [[-> ->] | (pre' & b & -> & ->)];
      [reflexivity|].
    rewrite length_app. cbn [List.length].
    destruct (Z.ltb_spec 0 (Z.of_nat (List.length pre' + 1))) as [_|?];
      [|lia].
    replace (Z.of_nat (List.length pre' + 1) - 1)
      with (Z.of_nat (List.length pre')) by lia.
    rewrite <- app_assoc. cbn [app]. now rewrite item_middle.
  - rewrite length_app. cbn [List.length].
    destruct post as [|c post]; cbn [hd_error option_map List.length].
    + destruct (Z.ltb_spec (Z.of_nat (List.length pre))
                  (Z.of_nat (List.length pre + 1) - 1)); [lia|reflexivity].
    + destruct (Z.ltb_spec (Z.of_nat (List.length pre))
                  (Z.of_nat (List.length pre + S (S (List.length post))) - 1))
        as [_|?]; [|lia].
      replace (Z.of_nat (List.length pre) + 1)
        with (Z.of_nat (List.length (pre ++ [a]))).
      2:{ rewrite length_app. cbn [List.length]. lia. }
      replace (pre ++ a :: c :: post)%list
        with ((pre ++ [a]) ++ c :: post)%list by now rewrite <- app_assoc.
      now rewrite item_middle.
Qed.

Lemma NoDup_slug_before (pre post : list Article) (a : Article) :
  NoDup (map slugOf (pre ++ a :: post)) ->
  Forall (fun b => slugOf b <> slugOf a) pre.
Proof.
  intros Hnd. apply Forall_forall. intros b Hb Heq.
  rewrite map_app in Hnd. cbn [map] in Hnd.
  apply NoDup_remove_2 in Hnd. apply Hnd.
  apply in_or_app. left. rewrite <- Heq. now apply in_map.
Qed.

End NavigationFacts.

(** X1. getArticleNavigation answers for the first article of the index
    that has the slug: previous is the article right before it in the index
    and next the one right after it, by title and slug; the first article of
    the index has no previous and the last one no next. For a slug that no
    article has, the answer has neither. *)
Theorem getArticleNavigation_neighbours (idx : list Article) (s : string) :
  (Forall (fun b => slugOf b <> s) idx ->
   getArticleNavigation idx s = {| previous := None; next := None |}) /\
  (forall pre a post,
      idx = (pre ++ a :: post)%list -> slugOf a = s ->
      Forall (fun b => slugOf b <> s) pre ->
      getArticleNavigation idx s
      = {| previous := option_map linkTo (lastOf pre);
           next := option_map linkTo (hd_error post) |}).
Proof.
  split; [apply navigation_absent|].
  intros pre a post -> <- Hpre. now apply navigation_at.
Qed.

Lemma getArticleNavigation_neighbours_witness :
  let idx := @loadArticles exampleRuntime exampleSource in
  getArticleNavigation idx "nothing" = {| previous := None; next := None |} /\
  getArticleNavigation idx "docker"
  = {| previous := Some {| linkTitle := "Apache"; linkSlug := "same" |};
       next := None |}.
Proof.
  intros idx.
  destruct (getArticleNavigation_neighbours idx "nothing") as [Habsent _].
  destruct (getArticleNavigation_neighbours idx "docker") as [_ Hat].
  split.
  - apply Habsent. repeat constructor; discriminate.
  - match eval vm_compute in idx with
    | [?x; ?y; ?z] =>
        exact (Hat [x; y] z [] eq_refl eq_refl
                 ltac:(repeat constructor; discriminate))
    end.
Defined.

(** X2. When the slugs of the index are pairwise distinct, next and
    previous undo each other: the previous of the next of an article is that
    article, and the next of its previous too. *)
Theorem getArticleNavigation_round_trip (idx : list Article) (a : Article) :
  NoDup (map slugOf idx) -> In a idx ->
  (forall n, next (getArticleNavigation idx (slugOf a)) = Some n ->
             previous (getArticleNavigation idx (linkSlug n))
             = Some (linkTo a)) /\
  (forall p, previous (getArticleNavigation idx (slugOf a)) = Some p ->
             next (getArticleNavigation idx (linkSlug p))
             = Some (linkTo a)).
Proof.
  intros Hnd Ha. apply in_split in Ha as (pre & post & ->).
  pose proof (NoDup_slug_before _ _ _ Hnd) as Hpre.
  rewrite (navigation_at pre post a Hpre). cbn [previous next]. split.
  - intros n Hn. destruct post as [|c post]; [discriminate|].
    injection Hn as <-. cbn [linkTo linkSlug]. fold (slugOf c).
    replace (pre ++ a :: c :: post)%list
      with ((pre ++ [a]) ++ c :: post)%list in * by now rewrite <- app_assoc.
    rewrite navigation_at by (eapply NoDup_slug_before; exact Hnd).
    cbn [previous]. now rewrite lastOf_snoc.
  - intros p Hp.
    destruct (lastOf_cases pre) as [[-> Hl] | (pre' & b & -> & Hl)];
      rewrite Hl in Hp; [discriminate|].
    injection Hp as <-. cbn [linkTo linkSlug]. fold (slugOf b).
    rewrite <- app_assoc in *. cbn [app] in *.
    rewrite navigation_at by (eapply NoDup_slug_before; exact Hnd).
    reflexivity.
Qed.

Lemma getArticleNavigation_round_trip_witness :
  let a := {| metadata := {| title := "A"; date := "2"; tags := [];
                             summary := ""; author := "x"; slug := "a" |};
              content := ""; excerpt := ""; readingTime := 1;
              filename := "a.md"; path := "/article/a" |} in
  let b := {| metadata := {| title := "B"; date := "1"; tags := [];
                             summary := ""; author := "x"; slug := "b" |};
              content := ""; excerpt := ""; readingTime := 1;
              filename := "b.md"; path := "/article/b" |} in
  next (getArticleNavigation [a; b] "a") = Some (linkTo b) /\
  previous (getArticleNavigation [a; b] "b") = Some (linkTo a).
Proof.
  intros a b.
  assert (Hnd : NoDup (map slugOf [a; b])).
  { repeat constructor; simpl; [intros [H|[]]; discriminate | tauto]. }
  split; [reflexivity|].
  exact (proj1 (getArticleNavigation_round_trip [a; b] a Hnd
                  (or_introl eq_refl)) (linkTo b) eq_refl).
Defined.

(** ** The order of the index, as its readers see it *)

Section OrderFacts.
Context `{Runtime}.

Lemma sorted_across {A : Type} (R : A -> A -> Prop) (l1 l2 : list A) :
  StronglySorted R (l1 ++ l2)%list ->
  forall a b, In a l1 -> In b l2 -> R a b.
Proof.
  induction l1 as [|x l1 IH]; intros Hs a b Ha Hb; [contradiction|].
  cbn [app] in Hs. inversion Hs as [|? ? Hs' Hx]; subst.
  destruct Ha as [<- | Ha].
  - rewrite Forall_forall in Hx. apply Hx. apply in_or_app. now right.
  - now apply IH.
Qed.

Lemma notAfter_key (a b : Article) :
  validDate a -> validDate b -> timeKey b <= timeKey a ->
  notAfter (metadata b) (metadata a).
Proof.
  unfold notAfter, validDate, timeKey.
  destruct (timeOf (metadata a)), (timeOf (metadata b)); simpl;
    intros Va Vb Hk; try contradiction; lia.
Qed.

(** A list that the comparator finds in order is left as it is. *)
Lemma sort_in_order {A : Type} (cmp : A -> A -> option Z) (l : list A) :
  Sorted (fun a b => cmpValue (cmp a b) <= 0) l -> sort cmp l = l.
Proof.
  induction 1 as [|x l Hs IH Hx]; [reflexivity|].
  cbn [sort fold_right]. fold (sort cmp l). rewrite IH.
  destruct Hx as [|y l Hxy]; [reflexivity|].
  cbn [insert]. destruct (Z.leb_spec (cmpValue (cmp x y)) 0); [reflexivity|lia].
Qed.

Lemma Sorted_map {A B : Type} (R : A -> A -> Prop) (Q : B -> B -> Prop)
    (f : A -> B) (l : list A) :
  (forall a b, In a l -> In b l -> R a b -> Q (f a) (f b)) ->
  Sorted R l -> Sorted Q (map f l).
Proof.
  intros HRQ Hs. induction Hs as [|x l Hs IH Hx]; [constructor|].
  cbn [map]. constructor.
  - apply IH. intros a b Ha Hb. apply HRQ; now right.
  - destruct Hx as [|y l Hxy]; constructor.
    apply HRQ; [now left | right; now left | exact Hxy].
Qed.

(** A slice from the start of the array. *)
Lemma slice_from_start {A : Type} (l : list A) (e : Z) :
  slice l 0 e
  = firstn (if e <? 0 then (List.length l - Z.to_nat (- e))%nat
            else Z.to_nat e) l.
Proof.
  unfold slice. set (len := Z.of_nat (List.length l)).
  assert (Hlen : 0 <= len) by (subst len; lia).
  change (0 <? 0) with false. cbv iota.
  replace (Z.min 0 len) with 0 by lia.
  change (skipn (Z.to_nat 0) l) with l. rewrite Z.sub_0_r.
  destruct (Z.ltb_spec e 0).
  - f_equal. subst len. lia.
  - destruct (Z_le_gt_dec e len).
    + f_equal. lia.
    + rewrite !firstn_all2; auto; subst len; lia.
Qed.

(** The search with the settings that the service takes by default finds a
    loaded index in order. *)
Lemma defaultOrder_sorted (files : list string) (source : Source)
    (params : ArticleSearchParams) :
  Forall validDate (loadArticlesOf files source) ->
  match sortBy params with Some ByTitle => False | _ => True end ->
  match sortOrder params with Some Asc => False | _ => True end ->
  Sorted (fun a b => cmpValue (searchOrder params a b) <= 0)
    (getArticlesList (loadArticlesOf files source)).
Proof.
  intros Hvalid Hby Hord.
  pose proof (loadArticlesOf_sorted files source Hvalid) as Hs.
  apply StronglySorted_Sorted in Hs.
  unfold getArticlesList. eapply Sorted_map; [|exact Hs].
  intros a b Ha Hb Hab. rewrite Forall_forall in Hvalid.
  pose proof (Hvalid a Ha) as Va. pose proof (Hvalid b Hb) as Vb.
  unfold searchOrder, validDate, timeKey in *. cbn [listItem itemMetadata].
  destruct (sortBy params) as [[|]|]; try contradiction;
    destruct (sortOrder params) as [[|]|]; try contradiction;
    destruct (timeOf (metadata a)), (timeOf (metadata b));
    simpl in *; try contradiction; lia.
Qed.

End OrderFacts.

(** X3. On an index that comes from a load of documents with valid dates,
    the previous article of getArticleNavigation is not dated before the
    article the navigation starts from, and the next article is not dated
    after it. *)
Theorem getArticleNavigation_order `{Runtime}
    (files : list string) (source : Source) (s : string) (a : Article) :
  let idx := loadArticlesOf files source in
  Forall validDate idx ->
  getArticleBySlug idx s = Some a ->
  (forall p, previous (getArticleNavigation idx s) = Some p ->
     exists b, In b idx /\ linkTo b = p /\
               notAfter (metadata a) (metadata b)) /\
  (forall n, next (getArticleNavigation idx s) = Some n ->
     exists c, In c idx /\ linkTo c = n /\
               notAfter (metadata c) (metadata a)).
Proof.
  intros idx Hvalid Hget.
  pose proof (find_first (fun b => String.eqb (slug (metadata b)) s) idx)
    as Hfind.
  fold (getArticleBySlug idx s) in Hfind. rewrite Hget in Hfind.
  destruct Hfind as (pre & post & Hidx & Ha & Hpre).
  apply String.eqb_eq in Ha.
  assert (Hpre' : Forall (fun b => slugOf b <> slugOf a) pre).
  { eapply Forall_impl; [|exact Hpre]. intros b Hb.
    unfold slugOf. rewrite Ha. now apply String.eqb_neq. }
  pose proof (loadArticlesOf_sorted files source Hvalid) as Hs.
  fold idx in Hs. rewrite <- Ha. fold (slugOf a).
  rewrite Hidx in *. rewrite (navigation_at pre post a Hpre').
  cbn [previous next]. rewrite Forall_forall in Hvalid. split.
  - intros p Hp.
    destruct (lastOf_cases pre) as [[-> Hl] | (pre' & b & -> & Hl)];
      rewrite Hl in Hp; [discriminate|].
    injection Hp as <-. exists b.
    assert (Hb : In b ((pre' ++ [b]) ++ a :: post)%list).
    { apply in_or_app. left. apply in_or_app. right. now left. }
    split; [exact Hb|]. split; [reflexivity|].
    apply notAfter_key; [now apply Hvalid | apply Hvalid, in_elt|].
    apply (sorted_across _ _ _ Hs b a);
      [apply in_or_app; right; now left | now left].
  - intros n Hn. destruct post as [|c post]; [discriminate|].
    injection Hn as <-. exists c.
    assert (Hc : In c (pre ++ a :: c :: post)%list).
    { apply in_or_app. right. right. now left. }
    split; [exact Hc|]. split; [reflexivity|].
    apply notAfter_key; [apply Hvalid, in_elt | now apply Hvalid|].
    replace (pre ++ a :: c :: post)%list
      with ((pre ++ [a]) ++ c :: post)%list in Hs by now rewrite <- app_assoc.
    apply (sorted_across _ _ _ Hs a c);
      [apply in_or_app; right; now left | now left].
Qed.

Lemma getArticleNavigation_order_witness :
  let idx := @loadArticles exampleRuntime exampleSource in
  Forall (@validDate exampleRuntime) idx /\
  option_map filename (getArticleBySlug idx "docker")
  = Some "docker-optimization-production.md" /\
  exists a b,
    getArticleBySlug idx "docker" = Some a /\ In b idx /\
    previous (getArticleNavigation idx "docker") = Some (linkTo b) /\
    @notAfter exampleRuntime (metadata a) (metadata b).
Proof.
  intros idx.
  assert (Hv : Forall (@validDate exampleRuntime) idx).
  { repeat constructor; discriminate. }
  split; [exact Hv|]. split; [reflexivity|].
  destruct (getArticleBySlug idx "docker") as [a|] eqn:Hget;
    [|discriminate].
  destruct (@getArticleNavigation_order exampleRuntime getArticleFiles
              exampleSource "docker" a Hv Hget) as [Hprev _].
  destruct (Hprev {| linkTitle := "Apache"; linkSlug := "same" |} eq_refl)
    as (b & Hb & Hlink & Hnot).
  exists a, b. repeat split; auto.
  fold idx. rewrite Hlink. reflexivity.
Defined.

(** X4. getRecentArticles with a limit that is not negative returns the
    list items of the first [limit] articles of the index, all of them when
    there are fewer; with a negative limit it leaves out that many articles
    at the end instead. On an index that comes from a load of documents with
    valid dates, no article that is left out is dated after one that is
    returned. *)
Theorem getRecentArticles_newest `{Runtime}
    (files : list string) (source : Source) (limit : Z) :
  let idx := loadArticlesOf files source in
  let n := if limit <? 0
           then (List.length idx - Z.to_nat (- limit))%nat
           else Z.to_nat limit in
  getRecentArticles idx (Some limit) = map listItem (firstn n idx) /\
  (Forall validDate idx ->
   forall a b, In a (firstn n idx) -> In b (skipn n idx) ->
               notAfter (metadata b) (metadata a)).
Proof.
  intros idx n. split.
  - unfold getRecentArticles, getArticlesList.
    rewrite slice_from_start, length_map, firstn_map. reflexivity.
  - intros Hvalid a b Ha Hb.
    pose proof (loadArticlesOf_sorted files source Hvalid) as Hs.
    fold idx in Hs. rewrite <- (firstn_skipn n idx) in Hs.
    rewrite Forall_forall in Hvalid.
    apply notAfter_key.
    + apply Hvalid. rewrite <- (firstn_skipn n idx).
      apply in_or_app. now left.
    + apply Hvalid. rewrite <- (firstn_skipn n idx).
      apply in_or_app. now right.
    + apply (sorted_across _ _ _ Hs a b Ha Hb).
Qed.

Lemma getRecentArticles_newest_witness :
  let idx := @loadArticles exampleRuntime exampleSource in
  Forall (@validDate exampleRuntime) idx /\
  map itemFilename (getRecentArticles idx (Some 2))
  = [ "linux-performance-monitoring.md"; "apache-execcgi-fpm.md" ] /\
  map itemFilename (getRecentArticles idx (Some (-2)))
  = [ "linux-performance-monitoring.md" ] /\
  forall a b, In a (firstn 2 idx) -> In b (skipn 2 idx) ->
              @notAfter exampleRuntime (metadata b) (metadata a).
Proof.
  intros idx.
  assert (Hv : Forall (@validDate exampleRuntime) idx).
  { repeat constructor; discriminate. }
  split; [exact Hv|]. split; [reflexivity|]. split; [reflexivity|].
  exact (proj2 (@getRecentArticles_newest exampleRuntime getArticleFiles
                  exampleSource 2) Hv).
Defined.

(** X5. On an index that comes from a load of documents with valid dates,
    the search that BlogIndex makes after "clear filters", which is the
    search without any setting, returns the index in its own order: the
    first ten articles, with every article counted; and the recent articles
    of getBlogSettings are the first five of that page. *)
Theorem searchArticles_default_is_index_order `{Runtime}
    (files : list string) (source : Source) (st : SearchState) :
  let idx := loadArticlesOf files source in
  let r := searchArticles idx (searchParamsOf (handleClearFilters st)) in
  Forall validDate idx ->
  r = searchArticles idx noParams /\
  articles r = firstn 10 (getArticlesList idx) /\
  totalCount r = Z.of_nat (List.length idx) /\
  recentArticles (getBlogSettings idx) = firstn 5 (articles r).
Proof.
  intros idx r Hvalid.
  assert (Hsorted : filteredSorted idx noParams = getArticlesList idx).
  { unfold filteredSorted, filtered, filterByTag, filterByQuery.
    cbn [truthy tag query noParams].
    apply sort_in_order. now apply defaultOrder_sorted. }
  assert (Hr : r = searchArticles idx noParams) by reflexivity.
  assert (Hslice : forall k, 0 <= k ->
            slice (getArticlesList idx) 0 k
            = firstn (Z.to_nat k) (getArticlesList idx)).
  { intros k Hk. rewrite slice_from_start.
    destruct (Z.ltb_spec k 0); [lia | reflexivity]. }
  split; [exact Hr|]. rewrite Hr.
  unfold searchArticles. cbn [articles totalCount]. rewrite Hsorted.
  split; [|split].
  - cbn [pageOf page noParams articlesPerPage config].
    now rewrite Hslice by lia.
  - unfold getArticlesList. now rewrite length_map.
  - cbn [pageOf page noParams articlesPerPage config getBlogSettings
         recentArticles].
    unfold getRecentArticles. rewrite !Hslice by lia.
    change (Z.to_nat ((1 - 1) * 10 + 10 - 0)) with 10%nat.
    change (Z.to_nat 5) with 5%nat.
    now rewrite firstn_firstn.
Qed.

Lemma searchArticles_default_is_index_order_witness :
  let idx := @loadArticles exampleRuntime exampleSource in
  let st := {| searchQuery := "x"; selectedTag := "web";
               stateSortBy := ByTitle; stateSortOrder := Asc;
               statePage := 3 |} in
  Forall (@validDate exampleRuntime) idx /\
  articles (@searchArticles exampleRuntime idx
              (searchParamsOf (handleClearFilters st)))
  = firstn 10 (getArticlesList idx).
Proof.
  intros idx st.
  assert (Hv : Forall (@validDate exampleRuntime) idx).
  { repeat constructor; discriminate. }
  split; [exact Hv|].
  exact (proj1 (proj2 (@searchArticles_default_is_index_order exampleRuntime
                         getArticleFiles exampleSource st Hv))).
Defined.

(** ** More on the search *)

Section SearchFacts.
Context `{Runtime}.

Lemma filtered_from_index (idx : list Article)
    (params : ArticleSearchParams) (a : ArticleListItem) :
  In a (filtered idx params) ->
  exists article, In article idx /\ a = listItem article.
Proof.
  unfold filtered, filterByTag, filterByQuery, getArticlesList. intros Ha.
  assert (Hin : In a (map listItem idx)).
  { destruct (truthy (tag params)); [apply filter_In in Ha as [Ha _]|];
      (destruct (truthy (query params));
       [apply filter_In in Ha as [Ha _]|]); exact Ha. }
  apply in_map_iff in Hin as (article & <- & Hart). now exists article.
Qed.

Lemma searchOrder_by_date (params : ArticleSearchParams)
    (a b : ArticleListItem) :
  match sortBy params with Some ByTitle => False | _ => True end ->
  validItem a -> validItem b ->
  let sign := match sortOrder params with Some Asc => -1 | _ => 1 end in
  cmpValue (searchOrder params a b) <= 0
  <-> sign * itemTime b <= sign * itemTime a.
Proof.
  unfold searchOrder, validItem, itemTime. intros Hby Va Vb.
  destruct (sortBy params) as [[|]|]; try contradiction;
    destruct (sortOrder params) as [[|]|];
    destruct (timeOf (itemMetadata a)), (timeOf (itemMetadata b));
    cbv beta iota zeta delta [cmpValue minus negate option_map];
    try contradiction; lia.
Qed.

Lemma filtered_valid (idx : list Article) (params : ArticleSearchParams) :
  Forall validDate idx -> Forall validItem (filtered idx params).
Proof.
  intros Hvalid. apply Forall_forall. intros a Ha.
  apply filtered_from_index in Ha as (article & Hart & ->).
  rewrite Forall_forall in Hvalid. exact (Hvalid article Hart).
Qed.

End SearchFacts.

(** X6. Every page of searchArticles before the last one holds exactly
    articlesPerPage articles, the last one holds the rest, which is at least
    one article, and whatever a page holds is the list item of an article of
    the index that passed the filters. *)
Theorem searchArticles_page_sizes `{Runtime}
    (idx : list Article) (params : ArticleSearchParams) (p : Z) :
  1 <= p ->
  let r := searchArticles idx (setPage params p) in
  (p < totalPages r -> Z.of_nat (List.length (articles r)) = 10) /\
  (p = totalPages r ->
   Z.of_nat (List.length (articles r)) = totalCount r - 10 * (p - 1) /\
   1 <= totalCount r - 10 * (p - 1) <= 10) /\
  (forall a, In a (articles r) ->
     In a (filtered idx params) /\
     exists article, In article idx /\ a = listItem article).
Proof.
  intros Hp r.
  assert (Hpage : pageOf (setPage params p) = p).
  { unfold pageOf; simpl. destruct (Z.eqb_spec p 0); [lia | reflexivity]. }
  unfold r, searchArticles. rewrite Hpage.
  cbn [articles totalPages totalCount articlesPerPage config].
  change (filteredSorted idx (setPage params p))
    with (filteredSorted idx params).
  set (l := filteredSorted idx params).
  pose proof (ceilDiv_spec (Z.of_nat (List.length l)) 10 ltac:(lia)) as Hceil.
  rewrite slice_firstn_skipn by lia.
  assert (Hlen : Z.of_nat (List.length
                    (firstn (Z.to_nat ((p - 1) * 10 + 10 - (p - 1) * 10))
                       (skipn (Z.to_nat ((p - 1) * 10)) l)))
                 = Z.min 10 (Z.max 0 (Z.of_nat (List.length l)
                                      - (p - 1) * 10))).
  { rewrite length_firstn, length_skipn. lia. }
  rewrite Hlen. split; [|split].
  - intros Hlt. lia.
  - intros ->. lia.
  - intros a Ha.
    assert (Hl : In a l).
    { rewrite <- (firstn_skipn (Z.to_nat ((p - 1) * 10)) l).
      apply in_or_app. right.
      rewrite <- (firstn_skipn
                    (Z.to_nat ((p - 1) * 10 + 10 - (p - 1) * 10))
                    (skipn (Z.to_nat ((p - 1) * 10)) l)).
      apply in_or_app. now left. }
    assert (Hf : In a (filtered idx params)).
    { eapply Permutation_in; [apply sort_perm | exact Hl]. }
    split; [exact Hf | eapply filtered_from_index; exact Hf].
Qed.

Lemma searchArticles_page_sizes_witness :
  let idx := @loadArticles exampleRuntime exampleSource in
  let r := @searchArticles exampleRuntime idx (setPage noParams 1) in
  1 <= 1 /\ totalPages r = 1 /\
  Z.of_nat (List.length (articles r)) = totalCount r - 10 * (1 - 1).
Proof.
  intros idx r. split; [lia|]. split; [reflexivity|].
  exact (proj1 (proj1 (proj2 (@searchArticles_page_sizes exampleRuntime idx
                                noParams 1 ltac:(lia))) eq_refl)).
Defined.

(** X7. When the dates of the index are valid, a search sorted by date
    returns the filtered set by time value, increasing for the ascending
    order and decreasing otherwise, and leaves the articles of one date in
    the order of the index. *)
Theorem searchArticles_sorted_by_date `{Runtime}
    (idx : list Article) (params : ArticleSearchParams) :
  Forall validDate idx ->
  match sortBy params with Some ByTitle => False | _ => True end ->
  let sign := match sortOrder params with Some Asc => -1 | _ => 1 end in
  StronglySorted (fun a b => sign * itemTime b <= sign * itemTime a)
    (filteredSorted idx params) /\
  (forall t,
      filter (fun a => itemTime a =? t) (filteredSorted idx params)
      = filter (fun a => itemTime a =? t) (filtered idx params)).
Proof.
  intros Hvalid Hby sign.
  pose proof (filtered_valid idx params Hvalid) as Hitems.
  split.
  - apply (sort_sorted (searchOrder params)
             (fun a => sign * itemTime a) validItem); [|exact Hitems].
    intros x y Vx Vy. now apply searchOrder_by_date.
  - intros t.
    pose proof (sort_stable (searchOrder params)
                  (fun a => sign * itemTime a) validItem
                  (fun x y Vx Vy => searchOrder_by_date params x y Hby Vx Vy)
                  (sign * t) (filtered idx params) Hitems) as Hst.
    assert (Hsame : forall l : list ArticleListItem,
               filter (fun a => sign * itemTime a =? sign * t) l
               = filter (fun a => itemTime a =? t) l).
    { intros l. apply filter_ext. intros a. subst sign.
      destruct (sortOrder params) as [[|]|];
        destruct (Z.eqb_spec (itemTime a) t);
        try (apply Z.eqb_eq; lia); apply Z.eqb_neq; lia. }
    now rewrite !Hsame in Hst.
Qed.

Lemma searchArticles_sorted_by_date_witness :
  let idx := @loadArticles exampleRuntime exampleSource in
  let params := {| query := None; tag := None; page := None;
                   sortBy := Some ByDate; sortOrder := Some Asc |} in
  Forall (@validDate exampleRuntime) idx /\
  map itemFilename (@filteredSorted exampleRuntime idx params)
  = [ "apache-execcgi-fpm.md"; "docker-optimization-production.md";
      "linux-performance-monitoring.md" ] /\
  StronglySorted
    (fun a b => -1 * @itemTime exampleRuntime b
                <= -1 * @itemTime exampleRuntime a)
    (@filteredSorted exampleRuntime idx params).
Proof.
  intros idx params.
  assert (Hv : Forall (@validDate exampleRuntime) idx).
  { repeat constructor; discriminate. }
  split; [exact Hv|]. split; [reflexivity|].
  exact (proj1 (@searchArticles_sorted_by_date exampleRuntime idx params
                  Hv I)).
Defined.

(** ** More on the tags *)

Section TagCountFacts.

Lemma hasTag_In (ts : list string) (t : string) :
  hasTag ts t = true <-> In t ts.
Proof.
  unfold hasTag. rewrite existsb_exists. split.
  - intros (x & Hx & Heq). apply String.eqb_eq in Heq. now subst.
  - intros Ht. exists t. split; [assumption | apply String.eqb_refl].
Qed.

Lemma filter_map_items {A B : Type} (f : A -> B) (p : B -> bool)
    (l : list A) :
  filter p (map f l) = map f (filter (fun x => p (f x)) l).
Proof.
  induction l as [|x l IH]; simpl; [reflexivity|].
  destruct (p (f x)); simpl; now rewrite IH.
Qed.

(** The entries of getAllTags before they are sorted. *)
Lemma getAllTags_unsorted (idx : list Article) :
  getAllTags idx
  = sort mostUsedFirst
      (map (fun t => {| tagName := t;
                        count := occurrences t (allTagsOf idx) |})
         (firstSeen [] (allTagsOf idx))).
Proof.
  unfold getAllTags. now rewrite countTags_spec, map_map.
Qed.

Lemma getAllTags_In (idx : list Article) (c : TagCount) :
  In c (getAllTags idx) <->
  In (tagName c) (allTagsOf idx) /\
  count c = occurrences (tagName c) (allTagsOf idx).
Proof.
  rewrite getAllTags_unsorted. split.
  - intros Hc. apply (Permutation_in _ (sort_perm _ _)) in Hc.
    apply in_map_iff in Hc as (t & <- & Ht).
    apply firstSeen_In in Ht as [Ht _]. now split.
  - intros [Ht Hc].
    apply (Permutation_in _ (Permutation_sym (sort_perm _ _))).
    apply in_map_iff. exists (tagName c). split.
    + destruct c as [t n]. simpl in *. now rewrite Hc.
    + apply firstSeen_In. split; [exact Ht | tauto].
Qed.

Lemma carrying_le_occurrences (t : string) (idx : list Article) :
  Z.of_nat (List.length (carrying t idx)) <= occurrences t (allTagsOf idx).
Proof.
  unfold occurrences, carrying, allTagsOf.
  induction idx as [|a idx IH]; simpl; [lia|].
  rewrite count_occ_app.
  destruct (hasTag (tags (metadata a)) t) eqn:Ha; simpl; [|lia].
  apply hasTag_In in Ha.
  apply (count_occ_In string_dec) in Ha. lia.
Qed.

Lemma carrying_eq_occurrences (t : string) (idx : list Article) :
  Forall (fun a => NoDup (tags (metadata a))) idx ->
  Z.of_nat (List.length (carrying t idx)) = occurrences t (allTagsOf idx).
Proof.
  unfold occurrences, carrying, allTagsOf.
  induction 1 as [|a idx Ha Hidx IH]; simpl; [reflexivity|].
  rewrite count_occ_app.
  pose proof (proj1 (NoDup_count_occ string_dec _) Ha t) as Hle.
  destruct (hasTag (tags (metadata a)) t) eqn:Hcarry; simpl.
  - apply hasTag_In in Hcarry.
    apply (count_occ_In string_dec) in Hcarry. lia.
  - assert (Hno : ~ In t (tags (metadata a))).
    { rewrite <- hasTag_In. congruence. }
    apply (count_occ_not_In string_dec) in Hno. lia.
Qed.

Lemma carrying_none (t : string) (idx : list Article) :
  carrying t idx = [] <-> ~ In t (allTagsOf idx).
Proof.
  unfold carrying, allTagsOf. induction idx as [|a idx IH]; simpl;
    [tauto|].
  rewrite in_app_iff.
  destruct (hasTag (tags (metadata a)) t) eqn:Ha.
  - apply hasTag_In in Ha. split; [discriminate | tauto].
  - assert (Hno : ~ In t (tags (metadata a))).
    { rewrite <- hasTag_In. congruence. }
    tauto.
Qed.

Lemma sum_perm (l l' : list Z) :
  Permutation l l' -> fold_right Z.add 0 l = fold_right Z.add 0 l'.
Proof.
  induction 1; simpl; lia.
Qed.

Lemma unseen_split (x : string) (seen l : list string) :
  ~ In x seen ->
  Z.of_nat (List.length
              (filter (fun y => negb (existsb (String.eqb y) seen)) l))
  = occurrences x l
    + Z.of_nat (List.length
        (filter (fun y => negb (existsb (String.eqb y) (x :: seen))) l)).
Proof.
  intros Hx.
  set (p1 := fun y => negb (existsb (String.eqb y) seen)).
  set (p2 := fun y => negb (existsb (String.eqb y) (x :: seen))).
  assert (Hp2 : forall y, p2 y = negb (String.eqb y x) && p1 y).
  { intros y. unfold p1, p2. cbn [existsb]. now rewrite negb_orb. }
  assert (Hp1 : p1 x = true).
  { unfold p1. apply negb_true_iff, not_true_is_false.
    now rewrite existsb_eqb_In. }
  induction l as [|y l IH]; [reflexivity|].
  rewrite occurrences_cons. cbn [filter]. rewrite Hp2.
  destruct (String.eqb_spec y x) as [->|Hne]; cbn [negb andb].
  - rewrite Hp1. cbn [List.length]. lia.
  - destruct (p1 y); cbn [List.length]; lia.
Qed.

(** The counts of the distinct tags add up to the number of tags. *)
Lemma occurrences_firstSeen (seen l : list string) :
  fold_right Z.add 0 (map (fun t => occurrences t l) (firstSeen seen l))
  = Z.of_nat (List.length
                (filter (fun y => negb (existsb (String.eqb y) seen)) l)).
Proof.
  revert seen; induction l as [|x l IH]; intros seen; [reflexivity|].
  cbn [firstSeen filter].
  destruct (existsb (String.eqb x) seen) eqn:Hmem; cbn [negb].
  - rewrite <- IH. f_equal. apply map_ext_in. intros t Ht.
    apply firstSeen_fresh in Ht. rewrite occurrences_cons.
    destruct (String.eqb_spec x t) as [->|_]; [|reflexivity].
    apply existsb_eqb_In in Hmem. contradiction.
  - assert (Hx : ~ In x seen).
    { rewrite <- existsb_eqb_In. congruence. }
    cbn [map fold_right List.length].
    rewrite Nat2Z.inj_succ, (unseen_split x seen l Hx), <- IH,
      occurrences_cons, String.eqb_refl.
    assert (Hsame : map (fun t => occurrences t (x :: l))
                      (firstSeen (x :: seen) l)
                    = map (fun t => occurrences t l)
                        (firstSeen (x :: seen) l)).
    { apply map_ext_in. intros t Ht. apply firstSeen_fresh in Ht.
      rewrite occurrences_cons.
      destruct (String.eqb_spec x t) as [->|_]; [|reflexivity].
      exfalso. apply Ht. now left. }
    rewrite Hsame. lia.
Qed.

End TagCountFacts.

(** X8. The tag filter and the tag counts agree. For a tag that is not
    the empty text, the search by that tag finds the articles that carry it
    and no other. Its totalCount is 0 exactly when getAllTags does not list
    the tag; it is never above the count that getAllTags gives for the tag,
    and equal to it when no article lists a tag twice. *)
Theorem searchArticles_by_tag `{Runtime} (idx : list Article) (t : string) :
  t <> "" ->
  let r := searchArticles idx (setTag noParams (Some t)) in
  totalCount r = Z.of_nat (List.length (carrying t idx)) /\
  (forall a, In a (filtered idx (setTag noParams (Some t))) <->
             exists article, In article idx /\
                             In t (tags (metadata article)) /\
                             a = listItem article) /\
  (totalCount r = 0 <-> ~ In t (map tagName (getAllTags idx))) /\
  (forall c, In c (getAllTags idx) -> tagName c = t ->
             1 <= totalCount r <= count c) /\
  (Forall (fun a => NoDup (tags (metadata a))) idx ->
   forall c, In c (getAllTags idx) -> tagName c = t ->
             count c = totalCount r).
Proof.
  intros Ht r.
  assert (Hfiltered : filtered idx (setTag noParams (Some t))
                      = map listItem (carrying t idx)).
  { unfold filtered, filterByTag, filterByQuery, getArticlesList.
    cbn [tag query setTag noParams truthy textOf].
    destruct (String.eqb_spec t "") as [?|_]; [contradiction|].
    cbn [negb]. now rewrite filter_map_items. }
  assert (Hcount : totalCount r = Z.of_nat (List.length (carrying t idx))).
  { unfold r, searchArticles, filteredSorted. cbn [totalCount].
    rewrite (Permutation_length (sort_perm _ _)), Hfiltered.
    now rewrite length_map. }
  assert (Hlisted : In t (map tagName (getAllTags idx))
                    <-> In t (allTagsOf idx)).
  { rewrite in_map_iff. split.
    - intros (c & <- & Hc). now apply getAllTags_In in Hc as [Hc _].
    - intros Hin.
      exists {| tagName := t; count := occurrences t (allTagsOf idx) |}.
      split; [reflexivity|]. apply getAllTags_In. now split. }
  split; [exact Hcount|]. split; [|split; [|split]].
  - intros a. rewrite Hfiltered, in_map_iff. unfold carrying. split.
    + intros (article & <- & Hart). apply filter_In in Hart as [Hin Hcarry].
      exists article. apply hasTag_In in Hcarry. auto.
    + intros (article & Hin & Hcarry & ->). exists article.
      split; [reflexivity|]. apply filter_In. split; [exact Hin|].
      now apply hasTag_In.
  - rewrite Hcount, Hlisted, <- carrying_none.
    destruct (carrying t idx); simpl; split; intros; try reflexivity;
      try discriminate; lia.
  - intros c Hc <-. apply getAllTags_In in Hc as [Hin Hc].
    rewrite Hcount, Hc.
    pose proof (carrying_le_occurrences (tagName c) idx) as Hle.
    split; [|exact Hle].
    destruct (carrying (tagName c) idx) eqn:Hcarry; [|simpl; lia].
    apply carrying_none in Hcarry. contradiction.
  - intros Hnodup c Hc <-. apply getAllTags_In in Hc as [_ Hc].
    rewrite Hcount, Hc. symmetry. now apply carrying_eq_occurrences.
Qed.

Lemma searchArticles_by_tag_witness :
  let idx := @loadArticles exampleRuntime exampleSource in
  let r := @searchArticles exampleRuntime idx (setTag noParams (Some "web"))
  in
  "web" <> "" /\ totalCount r = 2 /\
  map (fun c => (tagName c, count c)) (getAllTags idx)
  = [ ("web", 3); ("perf", 2); ("cgi", 1) ] /\
  1 <= totalCount r <= 3.
Proof.
  intros idx r.
  assert (Hweb : "web" <> "") by discriminate.
  split; [exact Hweb|]. split; [reflexivity|]. split; [reflexivity|].
  destruct (@searchArticles_by_tag exampleRuntime idx "web" Hweb)
    as (_ & _ & _ & Hle & _).
  apply (Hle {| tagName := "web"; count := 3 |}); [|reflexivity].
  vm_compute. now left.
Defined.

(** X9. The counts of getAllTags add up to the number of tags that the
    articles of the index list, repetitions included; every count is at
    least 1; and an index without tags gives no entry. *)
Theorem getAllTags_total (idx : list Article) :
  fold_right Z.add 0 (map count (getAllTags idx))
  = Z.of_nat (List.length (allTagsOf idx)) /\
  Forall (fun c => 1 <= count c) (getAllTags idx) /\
  (allTagsOf idx = [] -> getAllTags idx = []).
Proof.
  split; [|split].
  - rewrite getAllTags_unsorted.
    rewrite (sum_perm _ _ (Permutation_map count (sort_perm _ _))).
    rewrite map_map. cbn [count].
    rewrite occurrences_firstSeen. cbn [existsb negb].
    f_equal. f_equal. clear.
    induction (allTagsOf idx) as [|x l IH]; simpl; congruence.
  - apply Forall_forall. intros c Hc.
    apply getAllTags_In in Hc as [Hin ->].
    apply (count_occ_In string_dec) in Hin. unfold occurrences. lia.
  - intros Hnone. rewrite getAllTags_unsorted, Hnone. reflexivity.
Qed.

Lemma getAllTags_total_witness :
  getAllTags [] = [].
Proof.
  exact (proj2 (proj2 (getAllTags_total [])) eq_refl).
Defined.

(** ** Reading time *)

Section ReadingTimeFacts.

Lemma countWords_nonneg (b : bool) (s : string) : 0 <= countWords b s.
Proof.
  revert b; induction s as [|c s IH]; intros b; simpl; [lia|].
  destruct (isWhiteSpace c); [apply IH|].
  specialize (IH true). destruct b; lia.
Qed.

(** Runs of white space and words alternate. *)
Lemma runs_and_words (b : bool) (s : string) :
  countRuns b s + (if endsInWord (negb b) s then 1 else 0)
  = countWords (negb b) s + (if b then 0 else 1).
Proof.
  revert b; induction s as [|c s IH]; intros b.
  - destruct b; reflexivity.
  - cbn [countRuns countWords endsInWord].
    destruct (isWhiteSpace c) eqn:Hc; cbn [negb].
    + specialize (IH true). cbn [negb] in IH. destruct b; cbn [negb]; lia.
    + specialize (IH false). cbn [negb] in IH. destruct b; cbn [negb]; lia.
Qed.

Lemma trimStart_words (s : string) :
  countWords false (trimStart s) = countWords false s.
Proof.
  induction s as [|c s IH]; [reflexivity|].
  cbn [trimStart]. destruct (isWhiteSpace c) eqn:Hc; [|reflexivity].
  cbn [countWords]. now rewrite Hc.
Qed.

Lemma trimStart_starts (s : string) : startsInWord (trimStart s) = true.
Proof.
  induction s as [|c s IH]; [reflexivity|].
  cbn [trimStart]. destruct (isWhiteSpace c) eqn:Hc; [exact IH|].
  cbn [startsInWord]. now rewrite Hc.
Qed.

Lemma trimEnd_words (b : bool) (s : string) :
  countWords b (trimEnd s) = countWords b s.
Proof.
  revert b; induction s as [|c s IH]; intros b; [reflexivity|].
  assert (Hc : forall b', countWords b' (String c (trimEnd s))
                          = countWords b' (String c s)).
  { intros b'. cbn [countWords]. destruct (isWhiteSpace c); now rewrite IH. }
  cbn [trimEnd]. destruct (trimEnd s) as [|d t]; [|exact (Hc b)].
  rewrite <- Hc. destruct (isWhiteSpace c) eqn:Hws; [|reflexivity].
  cbn [countWords]. now rewrite Hws.
Qed.

Lemma trimEnd_ends (s : string) :
  forall b, trimEnd s <> "" -> endsInWord b (trimEnd s) = true.
Proof.
  induction s as [|c s IH]; intros b Hne; [contradiction|].
  assert (Hc : trimEnd s <> "" ->
               endsInWord b (String c (trimEnd s)) = true).
  { intros Hs. cbn [endsInWord]. now apply IH. }
  cbn [trimEnd] in *. destruct (trimEnd s) as [|d t].
  - destruct (isWhiteSpace c) eqn:Hws; [contradiction|].
    cbn [endsInWord]. now rewrite Hws.
  - apply Hc. discriminate.
Qed.

Lemma trimEnd_starts (s : string) :
  startsInWord s = true -> startsInWord (trimEnd s) = true.
Proof.
  destruct s as [|c s]; [reflexivity|]. cbn [startsInWord trimEnd].
  intros Hc. destruct (trimEnd s); [|exact Hc].
  apply negb_true_iff in Hc. rewrite Hc. cbn [startsInWord].
  now rewrite Hc.
Qed.

(** What [trim] returns has no white space at either end. *)
Lemma trim_ends (s : string) :
  startsInWord (trim s) = true /\ endsInWord true (trim s) = true.
Proof.
  unfold trim. split.
  - apply trimEnd_starts, trimStart_starts.
  - destruct (trimEnd (trimStart s)) eqn:Ht; [reflexivity|].
    rewrite <- Ht. apply trimEnd_ends. rewrite Ht. discriminate.
Qed.

Lemma trim_words (s : string) :
  countWords false (trim s) = countWords false s.
Proof. unfold trim. now rewrite trimEnd_words, trimStart_words. Qed.

(** The pieces into which [split] cuts a trimmed text are its words, but
    for the empty text, which gives one empty piece. *)
Lemma wordCount_words (body : string) :
  wordCount body = Z.max 1 (countWords false body).
Proof.
  unfold wordCount. rewrite <- trim_words.
  destruct (trim_ends body) as [Hstart Hend].
  destruct (trim body) as [|c t]; [reflexivity|].
  cbn [startsInWord] in Hstart. apply negb_true_iff in Hstart.
  cbn [endsInWord] in Hend. cbn [countRuns countWords].
  rewrite Hstart in *. cbn [negb] in Hend.
  pose proof (runs_and_words false t) as Hrw. cbn [negb] in Hrw.
  rewrite Hend in Hrw.
  pose proof (countWords_nonneg true t). lia.
Qed.

Lemma readingTime_positive (body : string) : 1 <= calculateReadingTime body.
Proof.
  unfold calculateReadingTime. rewrite wordCount_words.
  pose proof (ceilDiv_spec (Z.max 1 (countWords false body)) 200
                ltac:(lia)). lia.
Qed.

End ReadingTimeFacts.

(** X10. The reading time is the number of words of the body, a word
    being a maximal run of code units that are not white space, divided by
    200 and rounded up; a body without any word counts as one word, so that
    the reading time is never below 1, and it is 1 up to 200 words. *)
Theorem calculateReadingTime_words (body : string) :
  let words := countWords false body in
  calculateReadingTime body = ceilDiv (Z.max 1 words) 200 /\
  1 <= calculateReadingTime body /\
  (words <= 200 -> calculateReadingTime body = 1) /\
  (200 < words -> 1 < calculateReadingTime body).
Proof.
  intros words.
  assert (Hrt : calculateReadingTime body = ceilDiv (Z.max 1 words) 200).
  { unfold calculateReadingTime. now rewrite wordCount_words. }
  pose proof (ceilDiv_spec (Z.max 1 words) 200 ltac:(lia)) as Hceil.
  rewrite <- Hrt in Hceil.
  split; [exact Hrt|]. split; [apply readingTime_positive|].
  split; intros Hw; lia.
Qed.

Lemma calculateReadingTime_words_witness :
  countWords false "  two   words " = 2 /\
  calculateReadingTime "  two   words " = 1.
Proof.
  split; [reflexivity|].
  apply (proj1 (proj2 (proj2 (calculateReadingTime_words "  two   words ")))).
  vm_compute. discriminate.
Defined.

(** ** More on the load *)

Section LoadedFacts.
Context `{Runtime}.

Lemma excerpt_bound (body : string) (L : Z) :
  0 <= L -> JsString.length (extractExcerpt body L) <= L + 3.
Proof.
  intros HL. unfold extractExcerpt.
  destruct (Z.leb_spec (JsString.length (plainTextOf body)) L) as [?|Hlong];
    [lia|].
  set (truncated := substring (plainTextOf body) 0 L).
  assert (Htr : JsString.length truncated = L).
  { unfold truncated, JsString.length in *.
    rewrite substring_from_start, length_take. lia. }
  pose proof (lastIndexOf_range truncated " ") as Hidx.
  unfold JsString.length in *.
  destruct (4 * L <? 5 * lastIndexOf truncated " ");
    rewrite length_append; [|simpl; lia].
  rewrite substring_from_start, length_take. simpl. lia.
Qed.

Lemma truthy_text (v : option string) :
  truthy v = true -> textOf v <> "".
Proof.
  destruct v as [s|]; simpl; [|discriminate].
  destruct (String.eqb_spec s ""); [discriminate | auto].
Qed.

(** What loadSingleArticle returns when it returns an article. *)
Lemma loadSingleArticle_some (source : Source) (file : string)
    (a : Article) :
  loadSingleArticle source file = Some a ->
  wellFormed [file] a /\ filename a = file.
Proof.
  unfold loadSingleArticle.
  destruct (source (urlOf file)) as [| |data body]; try discriminate.
  destruct (truthy (fmTitle data)) eqn:Ht; [|discriminate].
  destruct (truthy (fmDate data)) eqn:Hd; [|discriminate].
  destruct (truthy (fmAuthor data)) eqn:Ha; [|discriminate].
  cbn [negb orb]. intros [= <-].
  unfold wellFormed.
  cbn [metadata title date author filename path excerpt content readingTime
       slug excerptLength config].
  repeat split; try (now apply truthy_text); try reflexivity.
  - now left.
  - apply (excerpt_bound body 200). lia.
  - apply readingTime_positive.
Qed.

Lemma loadSingleArticle_none (source : Source) (file : string) :
  loadSingleArticle source file = None <->
  source (urlOf file) = NotOk \/ source (urlOf file) = Malformed \/
  exists data body,
    source (urlOf file) = Parsed data body /\
    (truthy (fmTitle data) = false \/ truthy (fmDate data) = false \/
     truthy (fmAuthor data) = false).
Proof.
  unfold loadSingleArticle.
  destruct (source (urlOf file)) as [| |data body]; [tauto | tauto|].
  destruct (truthy (fmTitle data)) eqn:Ht, (truthy (fmDate data)) eqn:Hd,
    (truthy (fmAuthor data)) eqn:Ha; cbn [negb orb];
    split; intros Hx; try reflexivity; try discriminate;
    try (right; right; exists data, body; tauto).
  destruct Hx as [Hx | [Hx | (d & b & Hx & Hf)]]; try discriminate.
  injection Hx as <- <-. destruct Hf as [Hf | [Hf | Hf]]; congruence.
Qed.

Lemma loadEach_In (source : Source) (files : list string) (a : Article) :
  In a (loadEach source files) <->
  exists file, In file files /\ loadSingleArticle source file = Some a.
Proof.
  induction files as [|f files IH]; simpl.
  - split; [contradiction | intros (file & [] & _)].
  - destruct (loadSingleArticle source f) as [a'|] eqn:Hf; simpl;
      rewrite IH; split.
    + intros [<- | (file & Hin & Hload)]; [exists f | exists file]; auto.
    + intros (file & [<- | Hin] & Hload).
      * left. congruence.
      * right. now exists file.
    + intros (file & Hin & Hload). exists file. auto.
    + intros (file & [<- | Hin] & Hload); [congruence|]. now exists file.
Qed.

Lemma loadEach_length (source : Source) (files : list string) :
  (List.length (loadEach source files) <= List.length files)%nat.
Proof.
  induction files as [|f files IH]; simpl; [lia|].
  destruct (loadSingleArticle source f); simpl; lia.
Qed.

Lemma loadEach_filenames (source : Source) (files : list string) :
  NoDup files -> NoDup (map filename (loadEach source files)).
Proof.
  induction 1 as [|f files Hf Hnd IH]; simpl; [constructor|].
  destruct (loadSingleArticle source f) as [a|] eqn:Hload; [|exact IH].
  cbn [map]. constructor; [|exact IH].
  apply loadSingleArticle_some in Hload as [_ Hname]. rewrite Hname.
  intros Hin. apply in_map_iff in Hin as (b & Hb & Hin).
  apply loadEach_In in Hin as (file & Hfile & Hload).
  apply loadSingleArticle_some in Hload as [_ Hname'].
  apply Hf. congruence.
Qed.

Lemma filtered_length (idx : list Article) (params : ArticleSearchParams) :
  (List.length (filtered idx params) <= List.length idx)%nat.
Proof.
  unfold filtered, filterByTag, filterByQuery, getArticlesList.
  pose proof (length_map listItem idx) as Hmap.
  destruct (truthy (tag params)), (truthy (query params));
    repeat (etransitivity; [apply filter_length_le|]); lia.
Qed.

End LoadedFacts.

(** X11. Every article of the index after a load has a title, a date and
    an author that are not empty, the name of one of the files as its
    filename, the path [/article/] followed by its slug, the excerpt of its
    body for 200 code units, which has at most 203, and the reading time of
    its body, which is at least 1. *)
Theorem loadArticles_well_formed `{Runtime}
    (files : list string) (source : Source) :
  Forall (wellFormed files) (loadArticlesOf files source).
Proof.
  apply Forall_forall. intros a Ha.
  apply (Permutation_in _ (loadArticlesOf_perm files source)) in Ha.
  apply loadEach_In in Ha as (file & Hfile & Hload).
  apply loadSingleArticle_some in Hload as [Hwf Hname].
  unfold wellFormed in *. rewrite Hname in *.
  repeat split; try tauto.
Qed.

(** X12. A document that cannot be fetched, that does not parse, or that
    lacks a title, a date or an author (an empty one counts as lacking) is
    left out, and the index is the one that the other documents give. *)
Theorem loadArticles_skips_bad_document `{Runtime}
    (before after : list string) (file : string) (source : Source) :
  (source (urlOf file) = NotOk \/ source (urlOf file) = Malformed \/
   exists data body,
     source (urlOf file) = Parsed data body /\
     (truthy (fmTitle data) = false \/ truthy (fmDate data) = false \/
      truthy (fmAuthor data) = false)) ->
  loadArticlesOf (before ++ file :: after) source
  = loadArticlesOf (before ++ after) source.
Proof.
  intros Hbad. apply loadSingleArticle_none in Hbad.
  unfold loadArticlesOf. f_equal.
  rewrite !loadEach_app. f_equal. cbn [loadEach]. now rewrite Hbad.
Qed.

Lemma loadArticles_skips_bad_document_witness :
  @loadArticlesOf exampleRuntime
    ["apache-execcgi-fpm.md"; "ai-model-deployment-kubernetes.md";
     "docker-optimization-production.md"] exampleSource
  = @loadArticlesOf exampleRuntime
      ["apache-execcgi-fpm.md"; "docker-optimization-production.md"]
      exampleSource.
Proof.
  apply (@loadArticles_skips_bad_document exampleRuntime
           ["apache-execcgi-fpm.md"] ["docker-optimization-production.md"]
           "ai-model-deployment-kubernetes.md" exampleSource).
  right. right. eexists. eexists. split; [reflexivity|].
  left. reflexivity.
Defined.

(** X13. The index never holds more articles than there are files, and
    when the file names are distinct no two articles of the index have the
    same filename. With the five files that the service knows, every search
    has at most five results and one page, and never a next page from page 1
    on. *)
Theorem loadArticles_size `{Runtime} (files : list string) (source : Source) :
  (List.length (loadArticlesOf files source) <= List.length files)%nat /\
  (NoDup files -> NoDup (map filename (loadArticlesOf files source))) /\
  (forall params,
      let r := searchArticles (loadArticles source) params in
      totalCount r <= 5 /\ totalPages r <= 1 /\
      (1 <= pageOf params -> hasNextPage r = false)).
Proof.
  split; [|split].
  - rewrite (Permutation_length (loadArticlesOf_perm files source)).
    apply loadEach_length.
  - intros Hnd.
    apply (Permutation_NoDup
             (Permutation_map filename
                (Permutation_sym (loadArticlesOf_perm files source)))).
    now apply loadEach_filenames.
  - intros params r.
    assert (Hcount : totalCount r <= 5).
    { unfold r, searchArticles, filteredSorted. cbn [totalCount].
      rewrite (Permutation_length (sort_perm _ _)).
      pose proof (filtered_length (loadArticles source) params) as Hf.
      assert (Hidx : (List.length (loadArticles source) <= 5)%nat).
      { unfold loadArticles.
        rewrite (Permutation_length (loadArticlesOf_perm _ source)).
        apply (loadEach_length source getArticleFiles). }
      lia. }
    assert (Hpages : totalPages r <= 1).
    { unfold r, searchArticles in *. cbn [totalPages totalCount] in *.
      cbn [articlesPerPage config].
      match goal with
      | |- ceilDiv ?n 10 <= 1 =>
          pose proof (ceilDiv_spec n 10 ltac:(lia))
      end. lia. }
    split; [exact Hcount|]. split; [exact Hpages|].
    intros Hp. unfold r, searchArticles in *.
    cbn [hasNextPage totalPages] in *. apply Z.ltb_ge. lia.
Qed.

Lemma loadArticles_size_witness :
  NoDup getArticleFiles /\
  NoDup (map filename (@loadArticles exampleRuntime exampleSource)) /\
  hasNextPage (@searchArticles exampleRuntime
                 (@loadArticles exampleRuntime exampleSource)
                 (setPage noParams 1)) = false.
Proof.
  assert (Hnd : NoDup getArticleFiles).
  { repeat constructor; simpl; intuition discriminate. }
  destruct (@loadArticles_size exampleRuntime getArticleFiles exampleSource)
    as (_ & Hnames & Hsearch).
  split; [exact Hnd|]. split; [exact (Hnames Hnd)|].
  apply (Hsearch (setPage noParams 1)). vm_compute. discriminate.
Defined.

(** ** From the path of an article back to the article *)

Section PathFacts.

Lemma drop_append (a s : string) : drop (String.length a) (a ++ s) = s.
Proof. induction a as [|c a IH]; [now destruct s | exact IH]. Qed.

Lemma replaceFirst_unfold (pattern replacement s : string) :
  replaceFirst pattern replacement s
  = if String.prefix pattern s
    then replacement ++ drop (String.length pattern) s
    else match s with
         | "" => ""
         | String c s' => String c (replaceFirst pattern replacement s')
         end.
Proof. now destruct s. Qed.

(** Removing a pattern where the text starts with it leaves the rest. *)
Lemma replaceFirst_at_start (pattern s : string) :
  replaceFirst pattern "" (pattern ++ s) = s.
Proof.
  rewrite replaceFirst_unfold.
  assert (Hp : String.prefix pattern (pattern ++ s) = true).
  { apply prefix_app. now exists s. }
  rewrite Hp. apply drop_append.
Qed.

End PathFacts.

(** X14. The path of an article of the index leads back to it: from the
    path, App takes the slug of the article, and getArticleBySlug finds for
    that slug an article with the same slug and the same path, so that the
    tab of the article is added. A path that does not start with
    [/article/] gives no slug. *)
Theorem article_path_round_trip `{Runtime}
    (files : list string) (source : Source) (a : Article) :
  let idx := loadArticlesOf files source in
  In a idx ->
  articleSlugOf (path a) = Some (slugOf a) /\
  (exists found,
      getArticleBySlug idx (slugOf a) = Some found /\
      slugOf found = slugOf a /\ path found = path a) /\
  (forall other, String.prefix "/article/" other = false ->
                 articleSlugOf other = None).
Proof.
  intros idx Ha.
  assert (Hwf : forall b, In b idx -> path b = "/article/" ++ slugOf b).
  { intros b Hb.
    apply (Permutation_in _ (loadArticlesOf_perm files source)) in Hb.
    apply loadEach_In in Hb as (file & _ & Hload).
    now apply loadSingleArticle_some in Hload as [(_ & _ & _ & _ & Hp & _) _]. }
  split; [|split].
  - rewrite (Hwf a Ha). unfold articleSlugOf.
    assert (Hp : String.prefix "/article/" ("/article/" ++ slugOf a) = true).
    { apply prefix_app. now exists (slugOf a). }
    rewrite Hp. now rewrite replaceFirst_at_start.
  - unfold getArticleBySlug.
    destruct (List.find
                (fun article => String.eqb (slug (metadata article)) (slugOf a))
                idx) as [found|] eqn:Hfind.
    + apply find_some in Hfind as [Hin Hslug].
      apply String.eqb_eq in Hslug. exists found.
      split; [reflexivity|]. split; [exact Hslug|].
      rewrite (Hwf found Hin), (Hwf a Ha). unfold slugOf. now rewrite Hslug.
    + apply (find_none _ _ Hfind) in Ha.
      unfold slugOf in Ha. now rewrite String.eqb_refl in Ha.
  - intros other Hother. unfold articleSlugOf. now rewrite Hother.
Qed.

Lemma article_path_round_trip_witness :
  let idx := @loadArticles exampleRuntime exampleSource in
  map path idx = [ "/article/same"; "/article/same"; "/article/docker" ] /\
  articleSlugOf "/article/docker" = Some "docker" /\
  articleSlugOf "/articles" = None.
Proof.
  intros idx. split; [reflexivity|]. split; [reflexivity|].
  match eval vm_compute in idx with
  | ?x :: _ =>
      apply (proj2 (proj2 (@article_path_round_trip exampleRuntime
                             getArticleFiles exampleSource x
                             (or_introl eq_refl))))
  end.
  reflexivity.
Defined.

(** ** More on overlapping calls *)

Section ConsistencyFacts.
Context `{Runtime} (source : Source) (files : list string).

Lemma setNth_some_done (l : list Load) (i : nat) (old : Load) :
  nth_error l i = Some old -> existsb isDone (setNth l i LoadDone) = true.
Proof.
  revert i; induction l as [|y l IH]; intros [|i]; simpl; intros Hi;
    try discriminate; [reflexivity|].
  rewrite (IH i Hi). apply orb_true_r.
Qed.

Lemma nth_done (l : list Load) (i : nat) :
  nth_error l i = Some LoadDone -> existsb isDone l = true.
Proof.
  intros Hi. apply existsb_exists. exists LoadDone.
  split; [eapply nth_error_In; eauto | reflexivity].
Qed.

Lemma proceed_index (l : nat) (rest : list string) (loaded : list Article)
    (st : State) :
  index (proceed l rest loaded st) = index st \/
  (rest = [] /\ loads (proceed l rest loaded st) = setNth (loads st) l LoadDone).
Proof. destruct rest; [right | left]; now split. Qed.

Lemma step_consistent (e : Event) (st st' : State) :
  consistent source files st -> step source files e st = Some st' ->
  consistent source files st'.
Proof.
  intros (Hinv & Hidx & Hret) Hstep.
  pose proof (step_invariant source files e st st' Hinv Hstep) as Hinv'.
  split; [exact Hinv'|].
  destruct e as [|l|c]; cbn [step] in Hstep.
  - destruct (index st) as [|a idx] eqn:Hi; injection Hstep as <-;
      cbn [index callers]; (split; [now rewrite ?Hi|]);
      apply Forall_app; (split; [exact Hret|]); repeat constructor.
    destruct Hidx as [Hidx | Hidx]; [discriminate | exact Hidx].
  - assert (Hgo : forall rest loaded,
               nth_error (loads st) l <> None ->
               st' = proceed l rest loaded st ->
               (index st' = [] \/ index st' = loadArticlesOf files source)
               /\ allReturned (loadArticlesOf files source) (callers st')).
    { intros rest loaded Hl ->. split.
      - destruct (proceed_index l rest loaded st) as [-> | [_ Hloads]];
          [exact Hidx|].
        right. apply (inv_index _ _ _ Hinv'). rewrite Hloads.
        destruct (nth_error (loads st) l) as [old|] eqn:Hold;
          [|contradiction].
        eapply setNth_some_done; exact Hold.
      - destruct rest; exact Hret. }
    destruct (nth_error (loads st) l) as [[|g rest loaded|]|] eqn:Hl;
      try discriminate.
    + injection Hstep as <-. eapply Hgo; [discriminate | reflexivity].
    + destruct (loadSingleArticle source g); injection Hstep as <-;
        (eapply Hgo; [discriminate | reflexivity]).
  - destruct (nth_error (callers st) c) as [[l|]|]; try discriminate.
    destruct (nth_error (loads st) l) as [[| |]|] eqn:Hl; try discriminate.
    injection Hstep as <-. cbn [index callers]. split; [exact Hidx|].
    apply setNth_Forall; [exact Hret|].
    apply (inv_index _ _ _ Hinv). eapply nth_done; exact Hl.
Qed.

Lemma created_consistent : consistent source files created.
Proof.
  split; [apply created_invariant|]. split; [now left | constructor].
Qed.

Lemma run_consistent (events : list Event) (st st' : State) :
  consistent source files st -> run source files events st = Some st' ->
  consistent source files st'.
Proof.
  revert st; induction events as [|e events IH]; intros st Hc Hrun;
    cbn [run] in Hrun.
  - now injection Hrun as <-.
  - destruct (step source files e st) as [st1|] eqn:Hstep; [|discriminate].
    eapply IH; [eapply step_consistent|]; eassumption.
Qed.

(** When every load is through and the index holds an article, nothing
    that can happen fetches, loads or changes the index. *)
Lemma step_loaded (e : Event) (st st' : State) :
  settled st = true -> index st <> [] ->
  step source files e st = Some st' ->
  fetches st' = fetches st /\ loads st' = loads st /\ index st' = index st.
Proof.
  intros Hset Hidx Hstep. destruct e as [|l|c]; cbn [step] in Hstep.
  - destruct (index st); [contradiction|]. now injection Hstep as <-.
  - destruct (nth_error (loads st) l) as [ld|] eqn:Hl; [|discriminate].
    unfold settled in Hset. rewrite forallb_forall in Hset.
    specialize (Hset ld (nth_error_In _ _ Hl)).
    destruct ld; discriminate.
  - destruct (nth_error (callers st) c) as [[l|]|]; try discriminate.
    destruct (nth_error (loads st) l) as [[| |]|]; try discriminate.
    now injection Hstep as <-.
Qed.

Lemma run_loaded (events : list Event) (st st' : State) :
  settled st = true -> index st <> [] ->
  run source files events st = Some st' ->
  fetches st' = fetches st /\ loads st' = loads st /\ index st' = index st.
Proof.
  revert st; induction events as [|e events IH]; intros st Hset Hidx Hrun;
    cbn [run] in Hrun.
  - now injection Hrun as <-.
  - destruct (step source files e st) as [st1|] eqn:Hstep; [|discriminate].
    destruct (step_loaded e st st1 Hset Hidx Hstep) as (Hf & Hl & Hi).
    destruct (IH st1) as (Hf' & Hl' & Hi'); auto.
    + unfold settled. now rewrite Hl.
    + now rewrite Hi.
    + repeat split; congruence.
Qed.

End ConsistencyFacts.

(** X15. Whatever the calls of getArticles and the order in which the
    loads go on, the index of the service is at every moment either empty
    or the index that one load yields, never a part of it, and every caller
    that has got its result has got that index. *)
Theorem getArticles_results_agree `{Runtime}
    (source : Source) (files : list string) (events : list Event)
    (st : State) :
  run source files events created = Some st ->
  (index st = [] \/ index st = loadArticlesOf files source) /\
  allReturned (loadArticlesOf files source) (callers st).
Proof.
  intros Hrun.
  now destruct (run_consistent source files events created st
                  (created_consistent source files) Hrun) as (_ & Hi & Hr).
Qed.

Lemma getArticles_results_agree_witness :
  exists st,
    @run exampleRuntime exampleSource getArticleFiles twoCallers created
    = Some st /\
    allReturned (@loadArticles exampleRuntime exampleSource) (callers st).
Proof.
  pose (st := match @run exampleRuntime exampleSource getArticleFiles
                      twoCallers created with
              | Some st' => st'
              | None => created
              end).
  assert (Hrun : @run exampleRuntime exampleSource getArticleFiles
                   twoCallers created = Some st)
    by (vm_compute; reflexivity).
  exists st. split; [exact Hrun|].
  exact (proj2 (@getArticles_results_agree exampleRuntime exampleSource
                  getArticleFiles twoCallers st Hrun)).
Defined.

(** X16. When the load that the constructor started is through before
    anybody calls getArticles, and it has found an article, every file has
    been fetched once and is never fetched again: whatever calls follow, no
    further load starts and the index stays as it is. *)
Theorem getArticles_after_load_fetches_nothing `{Runtime}
    (source : Source) (files : list string)
    (before events : list Event) (st1 st2 : State) :
  noCalls before = true ->
  run source files before created = Some st1 ->
  settled st1 = true ->
  index st1 <> [] ->
  run source files events st1 = Some st2 ->
  (forall file, fetchCount st2 file = count_occ string_dec files file) /\
  loads st2 = [LoadDone] /\
  index st2 = loadArticlesOf files source.
Proof.
  intros Hnc Hrun1 Hset Hidx Hrun2.
  destruct (run_loaded source files events st1 st2 Hset Hidx Hrun2)
    as (Hf & Hl & Hi).
  pose proof (run_noCalls_loads source files _ _ _ Hnc Hrun1) as Hlen.
  cbn in Hlen.
  destruct (run_consistent source files before created st1
              (created_consistent source files) Hrun1)
    as ([_ Hfetch _] & Hindex & _).
  assert (Hloads : loads st1 = [LoadDone]).
  { unfold settled in Hset.
    destruct (loads st1) as [|ld [|? ?]]; try discriminate.
    cbn in Hset. destruct ld; try discriminate. reflexivity. }
  split; [|split].
  - intros file. unfold fetchCount in *. rewrite Hf, Hfetch, Hloads.
    cbn. lia.
  - congruence.
  - rewrite Hi. destruct Hindex; [contradiction | assumption].
Qed.

Lemma getArticles_after_load_fetches_nothing_witness :
  exists st1 st2,
    @run exampleRuntime exampleSource getArticleFiles (repeat (Resume 0) 6)
      created = Some st1 /\
    settled st1 = true /\ index st1 <> [] /\
    @run exampleRuntime exampleSource getArticleFiles [Call; Call; Call] st1
    = Some st2 /\
    map (fetchCount st2) getArticleFiles = [1; 1; 1; 1; 1]%nat.
Proof.
  pose (go := fun events st =>
          match @run exampleRuntime exampleSource getArticleFiles events st
          with
          | Some st' => st'
          | None => created
          end).
  pose (st1 := go (repeat (Resume 0) 6) created).
  pose (st2 := go [Call; Call; Call] st1).
  assert (Hrun1 : @run exampleRuntime exampleSource getArticleFiles
                    (repeat (Resume 0) 6) created = Some st1)
    by (vm_compute; reflexivity).
  assert (Hrun2 : @run exampleRuntime exampleSource getArticleFiles
                    [Call; Call; Call] st1 = Some st2)
    by (vm_compute; reflexivity).
  assert (Hidx : index st1 <> []) by (vm_compute; discriminate).
  destruct (@getArticles_after_load_fetches_nothing exampleRuntime
              exampleSource getArticleFiles (repeat (Resume 0) 6)
              [Call; Call; Call] st1 st2 eq_refl Hrun1 eq_refl Hidx Hrun2)
    as (Hcount & _ & _).
  exists st1, st2.
  split; [exact Hrun1|]. split; [reflexivity|]. split; [exact Hidx|].
  split; [exact Hrun2|].
  cbn [map getArticleFiles]. now rewrite !Hcount.
Defined.

(** X17. When no document gives an article, the empty index is never
    taken for a loaded one: every call of getArticles, whatever has happened
    before, starts a load of its own and waits for it. *)
Theorem getArticles_reloads_empty_index `{Runtime}
    (source : Source) (files : list string) (events : list Event)
    (st : State) :
  loadArticlesOf files source = [] ->
  run source files events created = Some st ->
  step source files Call st
  = Some {| index := [];
            fetches := fetches st;
            loads := (loads st ++ [AwaitFiles])%list;
            callers := (callers st
                        ++ [AwaitLoad (List.length (loads st))])%list |}.
Proof.
  intros Hnone Hrun.
  destruct (run_consistent source files events created st
              (created_consistent source files) Hrun) as (_ & Hidx & _).
  assert (Hempty : index st = []).
  { destruct Hidx as [Hidx | Hidx]; congruence. }
  cbn [step]. now rewrite Hempty.
Qed.

Lemma getArticles_reloads_empty_index_witness :
  let nothing : Source := fun _ => NotOk in
  exists st st',
    @run exampleRuntime nothing getArticleFiles
      (repeat (Resume 0) 6) created = Some st /\
    settled st = true /\
    @step exampleRuntime nothing getArticleFiles Call st = Some st' /\
    loads st' = [LoadDone; AwaitFiles].
Proof.
  intros nothing.
  pose (st := match @run exampleRuntime nothing getArticleFiles
                      (repeat (Resume 0) 6) created with
              | Some st' => st'
              | None => created
              end).
  assert (Hrun : @run exampleRuntime nothing getArticleFiles
                   (repeat (Resume 0) 6) created = Some st)
    by (vm_compute; reflexivity).
  pose proof (@getArticles_reloads_empty_index exampleRuntime nothing
                getArticleFiles (repeat (Resume 0) 6) st eq_refl Hrun)
    as Hstep.
  exists st. eexists.
  split; [exact Hrun|]. split; [reflexivity|]. split; [exact Hstep|].
  reflexivity.
Defined.

(** ** The plain text of a body *)

Section PlainTextFacts.

Lemma singleSpaced_after_word (b : bool) (s : string) :
  countWhile isWhiteSpace s = O ->
  singleSpaced b s = singleSpaced false s.
Proof.
  destruct s as [|c s]; [reflexivity|]. cbn [countWhile singleSpaced].
  destruct (isWhiteSpace c); [discriminate | reflexivity].
Qed.

(** The expression for white space leaves single spaces only; where it
    passes over the rest of a run, what follows starts with a word. *)
Lemma collapse_singleSpaced (s : string) (skip : nat) :
  (skip = O -> singleSpaced false (replaceFrom matchSpaces skip s) = true) /\
  (skip = countWhile isWhiteSpace s ->
   forall b, singleSpaced b (replaceFrom matchSpaces skip s) = true).
Proof.
  revert skip; induction s as [|c s IH]; intros skip; [now split|].
  assert (Hm : matchSpaces (String c s)
               = if isWhiteSpace c
                 then Some (" ", S (countWhile isWhiteSpace s))
                 else None).
  { unfold matchSpaces. cbn [countWhile].
    destruct (isWhiteSpace c); reflexivity. }
  cbn [replaceFrom countWhile]. rewrite Hm.
  destruct skip as [|k].
  - destruct (isWhiteSpace c) eqn:Hc.
    + split; [|discriminate]. intros _.
      cbn [Nat.pred append singleSpaced].
      change (isWhiteSpace " ") with true. cbn [negb andb].
      rewrite Ascii.eqb_refl. cbn [andb].
      now apply (proj2 (IH (countWhile isWhiteSpace s))).
    + cbn [singleSpaced]. rewrite Hc.
      split; intros _; [|intros b]; now apply (proj1 (IH O)).
  - split; [discriminate|].
    destruct (isWhiteSpace c); [|discriminate].
    intros [= ->]. apply (proj2 (IH _)). reflexivity.
Qed.

Lemma trimStart_singleSpaced (b : bool) (s : string) :
  singleSpaced b s = true -> singleSpaced false (trimStart s) = true.
Proof.
  revert b; induction s as [|c s IH]; intros b; [reflexivity|].
  cbn [trimStart singleSpaced].
  destruct (isWhiteSpace c) eqn:Hc.
  - intros Hs. apply andb_prop in Hs as [_ Hs]. now apply (IH true).
  - intros Hs. cbn [singleSpaced]. now rewrite Hc.
Qed.

Lemma trimEnd_singleSpaced (b : bool) (s : string) :
  singleSpaced b s = true -> singleSpaced b (trimEnd s) = true.
Proof.
  revert b; induction s as [|c s IH]; intros b; [reflexivity|].
  assert (Hc : singleSpaced b (String c s) = true ->
               singleSpaced b (String c (trimEnd s)) = true).
  { cbn [singleSpaced]. destruct (isWhiteSpace c).
    - intros Hs. apply andb_prop in Hs as [Hs1 Hs2].
      now rewrite Hs1, (IH true Hs2).
    - apply IH. }
  intros Hs. specialize (Hc Hs). cbn [trimEnd].
  destruct (trimEnd s) as [|d t]; [|exact Hc].
  destruct (isWhiteSpace c) eqn:Hws; [reflexivity|].
  cbn [singleSpaced]. now rewrite Hws.
Qed.

Lemma take_singleSpaced (n : nat) (b : bool) (s : string) :
  singleSpaced b s = true -> singleSpaced b (take n s) = true.
Proof.
  revert b s; induction n as [|n IH]; intros b [|c s]; try reflexivity.
  cbn [take singleSpaced]. destruct (isWhiteSpace c).
  - intros Hs. apply andb_prop in Hs as [Hs1 Hs2].
    now rewrite Hs1, (IH true s Hs2).
  - apply IH.
Qed.

Lemma append_ellipsis_singleSpaced (b : bool) (s : string) :
  singleSpaced b s = true -> singleSpaced b (s ++ ellipsis) = true.
Proof.
  revert b; induction s as [|c s IH]; intros b; [reflexivity|].
  cbn [append singleSpaced]. destruct (isWhiteSpace c).
  - intros Hs. apply andb_prop in Hs as [Hs1 Hs2].
    now rewrite Hs1, (IH true Hs2).
  - apply IH.
Qed.

Lemma take_starts (n : nat) (s : string) :
  startsInWord s = true -> startsInWord (take n s ++ ellipsis) = true.
Proof.
  destruct n as [|n], s as [|c s]; try reflexivity. cbn. auto.
Qed.

Lemma plainTextOf_normal (body : string) :
  singleSpaced false (plainTextOf body) = true /\
  startsInWord (plainTextOf body) = true /\
  endsInWord true (plainTextOf body) = true.
Proof.
  unfold plainTextOf.
  match goal with
  | |- context [trim (replace matchSpaces ?s)] => set (stripped := s)
  end.
  split; [|apply trim_ends].
  unfold trim. apply trimEnd_singleSpaced.
  apply (trimStart_singleSpaced false).
  now apply (proj1 (collapse_singleSpaced stripped O)).
Qed.

(** Where an expression does not match on a code unit outside [p], a
    text of such code units goes through unchanged. *)
Lemma replace_nothing (matchAt : string -> option (string * nat))
    (p : ascii -> bool) (s : string) :
  (forall c t, p c = true -> matchAt (String c t) = None) ->
  forallChars p s = true -> replace matchAt s = s.
Proof.
  intros Hm. unfold replace. induction s as [|c s IH]; [reflexivity|].
  cbn [forallChars replaceFrom]. intros Hs.
  apply andb_prop in Hs as [Hc Hs].
  now rewrite (Hm c s Hc), (IH Hs).
Qed.

Lemma not_markup (c : ascii) :
  negb (isMarkup c) = true ->
  Ascii.eqb c "#" = false /\ Ascii.eqb c "*" = false /\
  Ascii.eqb c "`" = false /\ Ascii.eqb c "[" = false /\
  Ascii.eqb c LF = false.
Proof.
  unfold isMarkup. rewrite negb_true_iff, !orb_false_iff. tauto.
Qed.

Lemma prefix_other_head (d : string) (a c : ascii) (t : string) :
  Ascii.eqb c a = false -> String.prefix (String a d) (String c t) = false.
Proof.
  intros Hc. cbn [String.prefix].
  destruct (ascii_dec a c) as [->|_]; [|reflexivity].
  now rewrite Ascii.eqb_refl in Hc.
Qed.

Lemma matchLink_other_head (c : ascii) (t : string) :
  Ascii.eqb c "[" = false -> matchLink (String c t) = None.
Proof.
  intros Hc. destruct (Ascii.eqb_spec c "[") as [->|Hne]; [discriminate|].
  destruct c as [[] [] [] [] [] [] [] []]; try reflexivity.
  now contradiction Hne.
Qed.

Lemma collapse_nothing (b : bool) (s : string) :
  singleSpaced b s = true -> replace matchSpaces s = s.
Proof.
  unfold replace. revert b; induction s as [|c s IH]; intros b;
    [reflexivity|].
  assert (Hm : matchSpaces (String c s)
               = if isWhiteSpace c
                 then Some (" ", S (countWhile isWhiteSpace s))
                 else None).
  { unfold matchSpaces. cbn [countWhile].
    destruct (isWhiteSpace c); reflexivity. }
  cbn [singleSpaced replaceFrom]. rewrite Hm.
  destruct (isWhiteSpace c) eqn:Hc.
  - intros Hs. apply andb_prop in Hs as [Hs Hs2].
    apply andb_prop in Hs as [Hsp _]. apply Ascii.eqb_eq in Hsp. subst c.
    assert (Hnext : countWhile isWhiteSpace s = O).
    { destruct s as [|d s]; [reflexivity|]. cbn [singleSpaced] in Hs2.
      cbn [countWhile]. destruct (isWhiteSpace d); [|reflexivity].
      cbn [negb andb] in Hs2. rewrite andb_false_r in Hs2. discriminate. }
    rewrite Hnext. cbn [Nat.pred append].
    now rewrite (IH true Hs2).
  - intros Hs. now rewrite (IH false Hs).
Qed.

Lemma trimStart_nothing (s : string) :
  startsInWord s = true -> trimStart s = s.
Proof.
  destruct s as [|c s]; [reflexivity|]. cbn [startsInWord trimStart].
  intros Hc. apply negb_true_iff in Hc. now rewrite Hc.
Qed.

Lemma trimEnd_nothing (s : string) :
  forall b, endsInWord b s = true ->
            trimEnd s = s /\ (b = false -> s <> "").
Proof.
  induction s as [|c s IH]; intros b Hb.
  - cbn in Hb. subst b. split; [reflexivity | discriminate].
  - cbn [endsInWord] in Hb. destruct (IH _ Hb) as [Hs Hne].
    split; [|discriminate]. cbn [trimEnd]. rewrite Hs.
    destruct s as [|d t]; [|reflexivity].
    destruct (isWhiteSpace c); [|reflexivity].
    exfalso. now apply Hne.
Qed.

End PlainTextFacts.

(** X18. The plain text that extractExcerpt works on has no white space
    but single spaces between words: no line feed, no tab, no two spaces in
    a row, and no space at either end. The excerpt keeps that form: it holds
    no white space but single spaces and does not start with one. *)
Theorem extractExcerpt_single_spaced (body : string) (L : Z) :
  singleSpaced false (plainTextOf body) = true /\
  startsInWord (plainTextOf body) = true /\
  endsInWord true (plainTextOf body) = true /\
  singleSpaced false (extractExcerpt body L) = true /\
  startsInWord (extractExcerpt body L) = true.
Proof.
  destruct (plainTextOf_normal body) as (Hsingle & Hstart & Hend).
  split; [exact Hsingle|]. split; [exact Hstart|]. split; [exact Hend|].
  unfold extractExcerpt.
  destruct (JsString.length (plainTextOf body) <=? L); [now split|].
  rewrite !substring_from_start.
  destruct (4 * L <? 5 * lastIndexOf (take (Z.to_nat L) (plainTextOf body)) " ").
  - split.
    + now apply append_ellipsis_singleSpaced, take_singleSpaced,
        take_singleSpaced.
    + apply take_starts.
      destruct (Z.to_nat L) as [|n], (plainTextOf body) as [|c s];
        try reflexivity. exact Hstart.
  - split.
    + now apply append_ellipsis_singleSpaced, take_singleSpaced.
    + now apply take_starts.
Qed.

(** X19. A text without markup (no [#], [*], backquote, [[] or line
    feed), with single spaces between its words and none at either end, is
    its own plain text, and extractExcerpt returns it as it is when the
    length allows. *)
Theorem extractExcerpt_plain_text (s : string) (L : Z) :
  plain s = true ->
  plainTextOf s = s /\
  (JsString.length s <= L -> extractExcerpt s L = s).
Proof.
  unfold plain. intros Hplain.
  apply andb_prop in Hplain as [Hplain Hend].
  apply andb_prop in Hplain as [Hplain Hstart].
  apply andb_prop in Hplain as [Hmark Hsingle].
  assert (Hsame : plainTextOf s = s).
  { unfold plainTextOf.
    rewrite (replace_nothing matchHeader (fun c => negb (isMarkup c)) s);
      [|intros c t Hc; apply not_markup in Hc as (Hh & _);
        unfold matchHeader; cbn [countWhile]; unfold isHash;
        now rewrite Hh | exact Hmark].
    rewrite (replace_nothing (matchDelimited "**")
               (fun c => negb (isMarkup c)) s);
      [|intros c t Hc; apply not_markup in Hc as (_ & Hx & _);
        unfold matchDelimited; now rewrite prefix_other_head | exact Hmark].
    rewrite (replace_nothing (matchDelimited "*")
               (fun c => negb (isMarkup c)) s);
      [|intros c t Hc; apply not_markup in Hc as (_ & Hx & _);
        unfold matchDelimited; now rewrite prefix_other_head | exact Hmark].
    rewrite (replace_nothing (matchDelimited "`")
               (fun c => negb (isMarkup c)) s);
      [|intros c t Hc; apply not_markup in Hc as (_ & _ & Hx & _);
        unfold matchDelimited; now rewrite prefix_other_head | exact Hmark].
    rewrite (replace_nothing matchFence (fun c => negb (isMarkup c)) s);
      [|intros c t Hc; apply not_markup in Hc as (_ & _ & Hx & _);
        unfold matchFence, fence; now rewrite prefix_other_head
       | exact Hmark].
    rewrite (replace_nothing matchLink (fun c => negb (isMarkup c)) s);
      [|intros c t Hc; apply not_markup in Hc as (_ & _ & _ & Hx & _);
        now apply matchLink_other_head | exact Hmark].
    rewrite (replace_nothing matchBlankLines (fun c => negb (isMarkup c)) s);
      [|intros c t Hc; apply not_markup in Hc as (_ & _ & _ & _ & Hx);
        unfold matchBlankLines; now rewrite Hx | exact Hmark].
    rewrite (collapse_nothing false s Hsingle).
    unfold trim. rewrite (trimStart_nothing s Hstart).
    now apply (trimEnd_nothing s true). }
  split; [exact Hsame|].
  intros Hlen. unfold extractExcerpt. rewrite Hsame.
  destruct (Z.leb_spec (JsString.length s) L); [reflexivity | lia].
Qed.

Lemma extractExcerpt_plain_text_witness :
  plain "Tuning nginx, step by step." = true /\
  extractExcerpt "Tuning nginx, step by step." 200
  = "Tuning nginx, step by step.".
Proof.
  assert (Hp : plain "Tuning nginx, step by step." = true) by reflexivity.
  split; [exact Hp|].
  apply (proj2 (extractExcerpt_plain_text "Tuning nginx, step by step." 200
                  Hp)).
  vm_compute. discriminate.
Defined.

(** ** The handlers of BlogIndex *)

Section HandlerFacts.
Context `{Runtime}.

Lemma slice_In {A : Type} (l : list A) (s e : Z) (a : A) :
  In a (slice l s e) -> In a l.
Proof.
  unfold slice. intros Ha.
  match type of Ha with
  | In a (firstn ?n (skipn ?k l)) =>
      rewrite <- (firstn_skipn k l); apply in_or_app; right;
      rewrite <- (firstn_skipn n (skipn k l)); apply in_or_app; now left
  end.
Qed.

Lemma page_In (idx : list Article) (params : ArticleSearchParams)
    (a : ArticleListItem) :
  In a (articles (searchArticles idx params)) -> In a (filtered idx params).
Proof.
  unfold searchArticles. cbn [articles]. intros Ha.
  apply slice_In in Ha.
  eapply Permutation_in; [apply sort_perm | exact Ha].
Qed.

End HandlerFacts.

(** X20. What BlogIndex shows after a click on a tag. A click on a tag
    that is not the selected one shows only articles that carry the tag; a
    click on the selected tag takes the tag filter away; and in both cases,
    as after a change of the query or "clear filters", the page shown is
    page 1, which has no previous page. *)
Theorem handleTagFilter_search `{Runtime}
    (idx : list Article) (st : SearchState) (t : string) :
  let shown := fun st' => searchArticles idx (searchParamsOf st') in
  (t <> "" -> t <> selectedTag st ->
   forall a, In a (articles (shown (handleTagFilter t st))) ->
             In t (tags (itemMetadata a))) /\
  (t = selectedTag st ->
   filtered idx (searchParamsOf (handleTagFilter t st))
   = filterByQuery (searchParamsOf st) (getArticlesList idx)) /\
  (forall st', In st' [ handleTagFilter t st; handleSearchChange t st;
                        handleClearFilters st ] ->
               currentPage (shown st') = 1 /\
               hasPreviousPage (shown st') = false).
Proof.
  intros shown. split; [|split].
  - intros Ht Hsel a Ha. unfold shown in Ha. apply page_In in Ha.
    assert (Htag : tag (searchParamsOf (handleTagFilter t st)) = Some t).
    { cbn [searchParamsOf handleTagFilter tag selectedTag].
      destruct (String.eqb_spec t (selectedTag st)); [contradiction|].
      unfold orUndefined.
      destruct (String.eqb_spec t ""); [contradiction | reflexivity]. }
    unfold filtered, filterByTag in Ha. rewrite Htag in Ha.
    cbn [truthy textOf] in Ha.
    destruct (String.eqb_spec t ""); [contradiction|].
    cbn [negb] in Ha. apply filter_In in Ha as [_ Ha].
    now apply hasTag_In in Ha.
  - intros Hsel. unfold filtered, filterByTag.
    cbn [searchParamsOf handleTagFilter tag selectedTag].
    rewrite <- Hsel, String.eqb_refl. reflexivity.
  - intros st' Hst'. cbn [In] in Hst'.
    destruct Hst' as [<- | [<- | [<- | []]]]; now split.
Qed.

Lemma handleTagFilter_search_witness :
  let idx := @loadArticles exampleRuntime exampleSource in
  let st := {| searchQuery := ""; selectedTag := "";
               stateSortBy := ByDate; stateSortOrder := Desc;
               statePage := 2 |} in
  "perf" <> "" /\ "perf" <> selectedTag st /\
  map itemFilename
    (articles (@searchArticles exampleRuntime idx
                 (searchParamsOf (handleTagFilter "perf" st))))
  = [ "linux-performance-monitoring.md";
      "docker-optimization-production.md" ] /\
  forall a,
    In a (articles (@searchArticles exampleRuntime idx
                      (searchParamsOf (handleTagFilter "perf" st)))) ->
    In "perf" (tags (itemMetadata a)).
Proof.
  intros idx st.
  assert (H1 : "perf" <> "") by discriminate.
  assert (H2 : "perf" <> selectedTag st) by discriminate.
  split; [exact H1|]. split; [exact H2|]. split; [reflexivity|].
  exact (proj1 (@handleTagFilter_search exampleRuntime idx st "perf") H1 H2).
Defined.

(** ** A negative page number *)

(** X21. searchArticles does not reject a negative page number: it
    counts the page from the end of the result. Page [p < 0] holds, in the
    order of the result, the articles of page [1 - p] of the result read
    backwards, so that page [-1] is the last ten but ten, and the last ten
    articles are on no negative page; it has no previous page, and it always
    has a next page. *)
Theorem searchArticles_negative_page `{Runtime}
    (idx : list Article) (params : ArticleSearchParams) (p : Z) :
  p < 0 ->
  let r := searchArticles idx (setPage params p) in
  articles r
  = rev (pageSlice (articlesPerPage config) (rev (filteredSorted idx params))
           (1 - p)) /\
  hasPreviousPage r = false /\
  hasNextPage r = true.
Proof.
  intros Hp r.
  assert (Hpage : pageOf (setPage params p) = p).
  { unfold pageOf; simpl. destruct (Z.eqb_spec p 0); [lia | reflexivity]. }
  unfold r, searchArticles. rewrite Hpage.
  cbn [articles hasPreviousPage hasNextPage totalPages articlesPerPage config].
  change (filteredSorted idx (setPage params p))
    with (filteredSorted idx params).
  set (l := filteredSorted idx params).
  split; [|split].
  - unfold pageSlice. rewrite (slice_firstn_skipn (rev l)) by lia.
    replace (Z.to_nat ((1 - p - 1) * 10 + 10 - (1 - p - 1) * 10))
      with 10%nat by lia.
    set (a := Z.to_nat ((1 - p - 1) * 10)).
    rewrite skipn_rev, firstn_rev, rev_involutive, length_firstn.
    rewrite skipn_firstn_comm.
    unfold slice.
    destruct (Z.ltb_spec ((p - 1) * 10) 0) as [_|?]; [|lia].
    destruct (Z.ltb_spec ((p - 1) * 10 + 10) 0) as [_|?]; [|lia].
    set (n := List.length l).
    replace (Z.to_nat (Z.max (Z.of_nat n + (p - 1) * 10) 0))
      with (Nat.min (n - a) n - 10)%nat by (subst a; lia).
    f_equal. subst a. lia.
  - apply Z.ltb_ge. lia.
  - apply Z.ltb_lt.
    pose proof (ceilDiv_spec (Z.of_nat (List.length l)) 10 ltac:(lia)). lia.
Qed.

Lemma searchArticles_negative_page_witness :
  let r := @searchArticles exampleRuntime [] (setPage noParams (-1)) in
  -1 < 0 /\ articles r = [] /\ totalPages r = 0 /\ hasNextPage r = true.
Proof.
  intros r. split; [lia|]. split; [reflexivity|]. split; [reflexivity|].
  exact (proj2 (proj2 (@searchArticles_negative_page exampleRuntime []
                         noParams (-1) ltac:(lia)))).
Defined.

(** ** Every load comes to its end *)

Section ProgressFacts.
Context `{Runtime} (source : Source) (files : list string).

Lemma setNth_nth {A : Type} (l : list A) (i : nat) (x old : A) :
  nth_error l i = Some old -> nth_error (setNth l i x) i = Some x.
Proof.
  revert i; induction l as [|y l IH]; intros [|i]; simpl; intros Hi;
    try discriminate; [reflexivity | now apply IH].
Qed.

(** From the loop, with [rest] to go, the call is through after one
    resumption for each file of [rest]. *)
Lemma loop_completes (l : nat) (rest : list string) :
  forall (loaded : list Article) (old : Load) (st : State),
    nth_error (loads st) l = Some old ->
    exists st',
      run source files (repeat (Resume l) (List.length rest))
        (proceed l rest loaded st) = Some st' /\
      nth_error (loads st') l = Some LoadDone.
Proof.
  induction rest as [|g rest IH]; intros loaded old st Hold.
  - eexists. split; [reflexivity|]. cbn [proceed loads].
    eapply setNth_nth; exact Hold.
  - cbn [List.length repeat run step proceed loads].
    rewrite (setNth_nth _ _ _ _ Hold).
    set (st1 := {| index := index st; fetches := g :: fetches st;
                   loads := setNth (loads st) l (AwaitArticle g rest loaded);
                   callers := callers st |}).
    assert (H1 : nth_error (loads st1) l
                 = Some (AwaitArticle g rest loaded)).
    { cbn [st1 loads]. eapply setNth_nth; exact Hold. }
    destruct (loadSingleArticle source g) as [article|].
    + exact (IH (loaded ++ [article])%list _ st1 H1).
    + exact (IH loaded _ st1 H1).
Qed.

End ProgressFacts.

(** X22. A load always comes to its end, whatever the documents are: a
    call of loadArticles that is resumed once for each file it has left,
    and once more if it has not yet got the list of files, is through, no
    document that fails stops it, and the index is then the one that a load
    yields. *)
Theorem loadArticles_completes `{Runtime}
    (source : Source) (files : list string) (events : list Event)
    (st : State) (l : nat) (ld : Load) :
  run source files events created = Some st ->
  nth_error (loads st) l = Some ld ->
  exists st',
    run source files (repeat (Resume l) (stepsLeft files ld)) st = Some st' /\
    nth_error (loads st') l = Some LoadDone /\
    index st' = loadArticlesOf files source.
Proof.
  intros Hrun Hl.
  assert (Hgo : exists st',
             run source files (repeat (Resume l) (stepsLeft files ld)) st
             = Some st' /\ nth_error (loads st') l = Some LoadDone).
  { destruct ld as [|g rest loaded|].
    - cbn [stepsLeft repeat run step]. rewrite Hl.
      exact (loop_completes source files l files [] _ st Hl).
    - cbn [stepsLeft repeat run step]. rewrite Hl.
      destruct (loadSingleArticle source g) as [article|].
      + exact (loop_completes source files l rest _ _ st Hl).
      + exact (loop_completes source files l rest _ _ st Hl).
    - exists st. split; [reflexivity | exact Hl]. }
  destruct Hgo as (st' & Hrun' & Hdone).
  exists st'. split; [exact Hrun'|]. split; [exact Hdone|].
  pose proof (run_consistent source files events created st
                (created_consistent source files) Hrun) as Hc.
  destruct (run_consistent source files _ st st' Hc Hrun') as (Hinv & _ & _).
  apply (inv_index _ _ _ Hinv). eapply nth_done; exact Hdone.
Qed.

Lemma loadArticles_completes_witness :
  let nothing : Source := fun _ => NotOk in
  exists st',
    @run exampleRuntime nothing getArticleFiles (repeat (Resume 0) 6) created
    = Some st' /\
    nth_error (loads st') 0 = Some LoadDone /\
    index st' = [].
Proof.
  intros nothing.
  destruct (@loadArticles_completes exampleRuntime nothing getArticleFiles
              [] created 0%nat AwaitFiles eq_refl eq_refl)
    as (st' & Hrun & Hdone & Hidx).
  exists st'. split; [exact Hrun|]. split; [exact Hdone|].
  rewrite Hidx. reflexivity.
Defined.
